(** * KitSvc: startup readiness orchestration

    A shallow embedding of [server.go] (the flag table, [server],
    [pingServer], [main]) and of [router/router.go] ([Load]), followed by
    the properties of the bootstrap sequence: the bounded liveness probe,
    the one-shot channels [deployed], [replayed] and [started], and the
    registration goroutine. *)

From Stdlib Require Import ZArith Lia Bool.
From stdpp Require Import base tactics option strings gmap list.

Local Open Scope string_scope.
Local Open Scope Z_scope.
Local Open Scope list_scope.

(** ** Go's [int]

    [int] is taken to be the 64-bit two's complement integer of the usual
    targets; arithmetic on it wraps around. *)

Module goint.

Definition min_int : Z := - 2 ^ 63.
Definition max_int : Z := 2 ^ 63 - 1.

Definition wrap (z : Z) : Z := (z + 2 ^ 63) mod 2 ^ 64 - 2 ^ 63.

Definition add (a b : Z) : Z := wrap (a + b).

Definition in_range (z : Z) : Prop := min_int <= z <= max_int.

End goint.

(** ** The [errors] package: an [error] is [nil] or a message. *)

Module errors.

Inductive error : Type :=
| nil
| New (text : string).

Definition is_nil (e : error) : bool :=
  match e with nil => true | New _ => false end.

End errors.

(** ** The [cli] package: flags with defaults, and the parsed context *)

Module cli.

Inductive Flag : Type :=
| StringFlag (EnvVar Name Usage Value : string)
| IntFlag (EnvVar Name Usage : string) (Value : Z)
| BoolFlag (EnvVar Name Usage : string)
| StringSliceFlag (EnvVar Name Usage : string) (Value : list string).

(** What the command line and the environment supplied, over the flag
    table the application was started with. *)
Record Context : Type := {
  flags : list Flag;
  intArgs : gmap string Z;
  stringArgs : gmap string string
}.

Fixpoint defaultInt (fs : list Flag) (name : string) : Z :=
  match fs with
  | [] => 0
  | IntFlag _ n _ v :: rest =>
      if String.eqb n name then v else defaultInt rest name
  | _ :: rest => defaultInt rest name
  end.

Fixpoint defaultString (fs : list Flag) (name : string) : string :=
  match fs with
  | [] => ""
  | StringFlag _ n _ v :: rest =>
      if String.eqb n name then v else defaultString rest name
  | _ :: rest => defaultString rest name
  end.

(** [c.Int(name)]: the supplied value, else the flag's [Value], else 0;
    the result is a Go [int]. *)
Definition Int (c : Context) (name : string) : Z :=
  goint.wrap
    match intArgs c !! name with
    | Some v => v
    | None => defaultInt (flags c) name
    end.

(** [c.String(name)]. *)
Definition String (c : Context) (name : string) : string :=
  match stringArgs c !! name with
  | Some v => v
  | None => defaultString (flags c) name
  end.

End cli.

(** ** [net/http]: the outcome of one [http.Get]

    [http.Get] returns a response and a [nil] error, or no response and
    an error. *)

Module http.

Record Response : Type := { StatusCode : Z }.

Inductive GetResult : Type :=
| Got (resp : Response)
| Failed (err : string).

End http.

(** ** [time] *)

Module time.

(** A [Duration] counts nanoseconds. *)
Definition Nanosecond : Z := 1.
Definition Second : Z := 1000000000 * Nanosecond.

End time.

(** ** The flag table of [server.go] *)

Definition serverFlags : list cli.Flag :=
  [ (* Common flags. *)
    cli.StringFlag "KITSVC_NAME" "name"
      "the name of the service, exposed for service discovery." "";
    cli.StringFlag "KITSVC_URL" "url"
      "the url of the service." "http://127.0.0.1:8080";
    cli.StringFlag "KITSVC_ADDR" "addr"
      "the address of the service (with the port)." "127.0.0.1:8080";
    cli.IntFlag "KITSVC_PORT" "port" "the port of the service." 8080;
    cli.StringFlag "KITSVC_USAGE" "usage"
      "the usage of the service, exposed for service discovery." "";
    cli.StringFlag "KITSVC_JWT_SECRET" "jwt-secret"
      "the secert used to encode the json web token." "";
    cli.IntFlag "KITSVC_MAX_PING_COUNT" "max-ping-count" "" 20;
    (* Database flags. *)
    cli.StringFlag "KITSVC_DATABASE_NAME" "database-name"
      "the name of the database." "service";
    cli.StringFlag "KITSVC_DATABASE_HOST" "database-host"
      "the host of the database (with the port)." "127.0.0.1:3306";
    cli.StringFlag "KITSVC_DATABASE_USER" "database-user"
      "the user of the database." "";
    cli.StringFlag "KITSVC_DATABASE_PASSWORD" "database-password"
      "the password of the database." "";
    cli.StringFlag "KITSVC_DATABASE_CHARSET" "database-charset"
      "the charset of the database." "utf8";
    cli.StringFlag "KITSVC_DATABASE_LOC" "database-loc"
      "the timezone of the database." "Local";
    cli.BoolFlag "KITSVC_DATABASE_PARSE_TIME" "database-parse_time"
      "parse the time.";
    (* NSQ flags. *)
    cli.StringFlag "KITSVC_NSQ_PRODUCER" "nsq-producer"
      "the address of the TCP NSQ producer (with the port)." "127.0.0.1:4150";
    cli.StringFlag "KITSVC_NSQ_PRODUCER_HTTP" "nsq-producer-http"
      "the address of the HTTP NSQ producer (with the port)." "127.0.0.1:4151";
    cli.StringSliceFlag "KITSVC_NSQ_LOOKUPDS" "nsq-lookupds"
      "the address of the NSQ lookupds (with the port)." ["127.0.0.1:4161"];
    (* Event store flags. *)
    cli.StringFlag "KITSVC_ES_SERVER_URL" "es-url"
      "the url of the event store server." "http://127.0.0.1:2113";
    cli.StringFlag "KITSVC_ES_USERNAME" "es-username"
      "the username of the event store." "";
    cli.StringFlag "KITSVC_ES_PASSWORD" "es-password"
      "the password of the event store." "";
    (* Prometheus flags. *)
    cli.StringFlag "KITSVC_PROMETHEUS_NAMESPACE" "prometheus-namespace"
      "the prometheus namespace." "";
    cli.StringFlag "KITSVC_PROMETHEUS_SUBSYSTEM" "prometheus-subsystem"
      "the subsystem of the promethues." "";
    (* Consul flags. *)
    cli.StringFlag "KITSVC_CONSUL_CHECK_INTERVAL" "consul-check_interval"
      "the interval of consul health check." "10s";
    cli.StringFlag "KITSVC_CONSUL_CHECK_TIMEOUT" "consul-check_timeout"
      "the timeout of consul health check." "1s";
    cli.StringSliceFlag "KITSVC_CONSUL_TAGS" "consul-tags"
      "the service tags for consul." ["micro"] ].

(** The context [app.Run] hands to the action when nothing is supplied. *)
Definition defaultContext : cli.Context :=
  {| cli.flags := serverFlags; cli.intArgs := ∅; cli.stringArgs := ∅ |}.

(** A context that only overrides ["max-ping-count"]. *)
Definition withMaxPingCount (n : Z) : cli.Context :=
  {| cli.flags := serverFlags;
     cli.intArgs := {[ "max-ping-count" := n ]};
     cli.stringArgs := ∅ |}.

(** ** The observable world

    Every effect of the bootstrap is recorded as an event; the log keeps
    the newest event first. *)

Inductive ChanName : Type := Deployed | Replayed | Started.

Inductive Event : Type :=
| EvGet (url : string) (r : http.GetResult)
| EvInfo (msg : string)
| EvFatal (msg : string)
| EvSleep (d : Z)
| EvRegister (ok : bool)
| EvClose (ch : ChanName).

Definition World : Type := list Event.

Definition is_get (e : Event) : bool :=
  match e with EvGet _ _ => true | _ => false end.
Definition is_sleep (e : Event) : bool :=
  match e with EvSleep _ => true | _ => false end.
Definition is_register (e : Event) : bool :=
  match e with EvRegister _ => true | _ => false end.
Definition is_close (ch : ChanName) (e : Event) : bool :=
  match e, ch with
  | EvClose Deployed, Deployed => true
  | EvClose Replayed, Replayed => true
  | EvClose Started, Started => true
  | _, _ => false
  end.

Fixpoint count (p : Event -> bool) (w : World) : nat :=
  match w with
  | [] => O
  | e :: rest => (if p e then 1 else 0)%nat + count p rest
  end.

(** Number of GET requests issued, number of sleeps, time slept. *)
Definition attempts (w : World) : nat := count is_get w.
Definition sleeps (w : World) : nat := count is_sleep w.

Fixpoint slept (w : World) : Z :=
  match w with
  | [] => 0
  | EvSleep d :: rest => d + slept rest
  | _ :: rest => slept rest
  end.

(** ** A state monad over the world *)

Definition M (A : Type) : Type := World -> A * World.

Definition ret {A} (a : A) : M A := fun w => (a, w).
Definition bind {A B} (m : M A) (k : A -> M B) : M B :=
  fun w => let (a, w') := m w in k a w'.
Definition emit (e : Event) : M unit := fun w => (tt, e :: w).

Declare Scope go_scope.
Delimit Scope go_scope with go.
Notation "x <- m ;; k" := (bind m (fun x => k))
  (at level 100, m at next level, right associativity) : go_scope.
Notation "m ;;; k" := (bind m (fun _ => k))
  (at level 100, right associativity) : go_scope.

(** ** [pingServer] *)

Section Probe.

(** The target: what the [k]-th GET of the process (counting from 0)
    comes back with. A GET that never comes back is not part of this
    model. *)
Variable net : nat -> http.GetResult.

Definition http_Get (url : string) : M http.GetResult :=
  fun w => let r := net (attempts w) in (r, EvGet url r :: w).

Definition logrus_Infof (msg : string) : M unit := emit (EvInfo msg).
Definition logrus_Infoln (msg : string) : M unit := emit (EvInfo msg).
Definition time_Sleep (d : Z) : M unit := emit (EvSleep d).

(** [err == nil && resp.StatusCode == 200] *)
Definition attempt_ok (r : http.GetResult) : bool :=
  match r with
  | http.Got resp => http.StatusCode resp =? 200
  | http.Failed _ => false
  end.

Inductive LoopCtl : Type :=
| Return (err : errors.error)
| Continue (i : Z).

(** One pass through the [for] statement with counter [i]: the test,
    and the body with its [i++]. *)
Definition pingIter (c : cli.Context) (i : Z) : M LoopCtl :=
  (if i <? cli.Int c "max-ping-count" then
     r <- http_Get (cli.String c "url" +:+ "/sd/health") ;;
     if attempt_ok r then ret (Return errors.nil)
     else
       logrus_Infof "Waiting for the router, retry in 1 second." ;;;
       time_Sleep time.Second ;;;
       ret (Continue (goint.add i 1))
   else ret (Return (errors.New "Cannot connect to the router.")))%go.

Fixpoint pingLoop (fuel : nat) (c : cli.Context) (i : Z)
  : M (option errors.error) :=
  match fuel with
  | O => ret None
  | S fuel' =>
      (ctl <- pingIter c i ;;
       match ctl with
       | Return e => ret (Some e)
       | Continue j => pingLoop fuel' c j
       end)%go
  end.

(** [None] only if the fuel runs out, which [pingServer_returns] rules
    out. *)
Definition pingServer (c : cli.Context) : M (option errors.error) :=
  pingLoop (S (Z.to_nat (cli.Int c "max-ping-count"))) c 0.

End Probe.

(** ** The [gin] engine, as far as [router.Load] uses it

    Handlers and middlewares are named by their qualified Go identifiers.
    A route carries the whole chain it runs: the middlewares installed on
    its group when the group was made, then the handler. *)

Module gin.

Definition HandlerFunc : Type := string.

Record RouteInfo : Type := {
  Method : string;
  Path : string;
  Chain : list HandlerFunc
}.

Record Engine : Type := {
  Handlers : list HandlerFunc;
  Routes : list RouteInfo
}.

(** A group remembers its base path and the middlewares at its creation. *)
Record RouterGroup : Type := {
  basePath : string;
  groupHandlers : list HandlerFunc
}.

Definition New : Engine := {| Handlers := []; Routes := [] |}.

Definition Use (mw : list HandlerFunc) (g : Engine) : Engine :=
  {| Handlers := Handlers g ++ mw; Routes := Routes g |}.

(** [joinPaths] on the clean, slash-led paths that [Load] passes. *)
Definition joinPaths (absolutePath relativePath : string) : string :=
  if String.eqb relativePath "" then absolutePath
  else if String.eqb absolutePath "/" then relativePath
  else absolutePath +:+ relativePath.

(** The engine itself is the group at ["/"]. *)
Definition root (g : Engine) : RouterGroup :=
  {| basePath := "/"; groupHandlers := Handlers g |}.

Definition Group (parent : RouterGroup) (relativePath : string) : RouterGroup :=
  {| basePath := joinPaths (basePath parent) relativePath;
     groupHandlers := groupHandlers parent |}.

(** Registering a route. gin panics when a method and path are
    registered twice; that case is not part of this model, and [Load] on
    the fresh engine of [server] never gets there. *)
Definition handle (method : string) (grp : RouterGroup)
    (relativePath : string) (h : HandlerFunc) (g : Engine) : Engine :=
  {| Handlers := Handlers g;
     Routes := Routes g ++
       [ {| Method := method;
            Path := joinPaths (basePath grp) relativePath;
            Chain := groupHandlers grp ++ [h] |} ] |}.

Definition GET := handle "GET".
Definition POST := handle "POST".
Definition PUT := handle "PUT".
Definition DELETE := handle "DELETE".

(** The route a request for a static path is dispatched to. Routes with
    parameters, which gin matches by pattern, are found here under their
    literal text only. *)
Fixpoint findRoute (method path : string) (rs : list RouteInfo)
  : option RouteInfo :=
  match rs with
  | [] => None
  | r :: rest =>
      if String.eqb (Method r) method && String.eqb (Path r) path
      then Some r else findRoute method path rest
  end.

End gin.

(** ** [router.Load] *)

Module router.

(** The four engines [Load] fills: gin, and the capture tables of the
    event, websocket and message-queue engines. *)
Record Engines : Type := {
  g : gin.Engine;
  e : list (string * gin.HandlerFunc);
  w : list (string * gin.HandlerFunc);
  m : list (string * string * gin.HandlerFunc)
}.

Definition fresh : Engines :=
  {| g := gin.New; e := []; w := []; m := [] |}.

Definition Load (es : Engines) (mw : list gin.HandlerFunc) : Engines :=
let g := g es in
(* Middlewares. *)
let g := gin.Use ["gin.LoggerWithWriter"] g in
let g := gin.Use ["gin.Recovery"] g in
let g := gin.Use ["header.NoCache"] g in
let g := gin.Use ["header.Options"] g in
let g := gin.Use ["header.Secure"] g in
let g := gin.Use mw g in
(* The common handlers. *)
let user := gin.Group (gin.root g) "/user" in
let g := gin.POST user "" "service.CreateUser" g in
let g := gin.GET user "/:username" "service.GetUser" g in
let g := gin.DELETE user "/:id" "service.DeleteUser" g in
let g := gin.PUT user "/:id" "service.UpdateUser" g in
let g := gin.POST user "/token" "service.PostToken" g in
(* The health check handlers for the service discovery. *)
let svcd := gin.Group (gin.root g) "/sd" in
let g := gin.GET svcd "/health" "sd.HealthCheck" g in
let g := gin.GET svcd "/disk" "sd.DiskCheck" g in
let g := gin.GET svcd "/cpu" "sd.CPUCheck" g in
let g := gin.GET svcd "/ram" "sd.RAMCheck" g in
(* Prometheus metrics handler. *)
let g := gin.GET (gin.root g) "/metrics" "metrics.PrometheusHandler" g in
(* WebSockets, message handlers, event handlers. *)
{| router.g := g;
   e := e es ++ [("user_created", "service.UserCreated")];
   w := w es ++ [("/", "service.WatchUser")];
   m := m es ++ [("user", "send_mail", "service.SendMail")] |}.

End router.

(** The middlewares [server] hands to [router.Load], in order. *)
Definition serverMiddlewares : list gin.HandlerFunc :=
  [ "middleware.Config"; "middleware.Store"; "middleware.Logging";
    "middleware.Event"; "middleware.MQ"; "middleware.Metrics" ].

(** ** Channels

    A [chan bool] on which nothing is ever sent: a receive blocks until
    the channel is closed, and closing a closed channel panics. *)

Record Chan : Type := { closed : bool }.

Definition make : Chan := {| closed := false |}.

Definition close (ch : Chan) : option Chan :=
  if closed ch then None else Some {| closed := true |}.

Definition recvReady (ch : Chan) : bool := closed ch.

(** ** The running process *)

Inductive Proc : Type :=
| Running
| Exited (code : Z)
| Panicked (msg : string).

(** Where the registration goroutine stands: at [<-replayed], at
    [sd.Register(c)], at [close(started)], or past its end. *)
Inductive RegPc : Type := RegWait | RegCall | RegClose | RegDone.

(** Where the probe goroutine stands: inside [pingServer] at the loop
    test with counter [i], back from it with [err], after [Fatalln], at
    [close(deployed)], or past its end. *)
Inductive ProbePc : Type :=
| ProbeLoop (i : Z)
| ProbeReturned (err : errors.error)
| ProbeFatal
| ProbeClose
| ProbeDone.

Inductive ReplayPc : Type := ReplayPending | ReplayDone.

Inductive MainPc : Type := MainServing | MainReturned.

Inductive Thread : Type := TMain | TRegister | TProbe | TReplay.

Record State : Type := {
  ctx : cli.Context;
  listenAddr : string;
  engines : router.Engines;
  deployed : Chan;
  replayed : Chan;
  started : Chan;
  mainPc : MainPc;
  regPc : RegPc;
  probePc : ProbePc;
  replayPc : ReplayPc;
  proc : Proc;
  world : World
}.

(** What lies outside the process. *)
Record Env : Type := {
  (** the answer to the [k]-th GET *)
  net : nat -> http.GetResult;
  (** whether [sd.Register] succeeds *)
  registerOk : bool;
  (** whether the replay collaborator waits for [deployed] before it
      replays and closes [replayed] *)
  replayAfterDeployed : bool
}.

(** Field updates. *)
Definition setDeployed (ch : Chan) (s : State) : State :=
  {| ctx := ctx s; listenAddr := listenAddr s; engines := engines s;
     deployed := ch; replayed := replayed s; started := started s;
     mainPc := mainPc s; regPc := regPc s; probePc := probePc s;
     replayPc := replayPc s; proc := proc s; world := world s |}.
Definition setReplayed (ch : Chan) (s : State) : State :=
  {| ctx := ctx s; listenAddr := listenAddr s; engines := engines s;
     deployed := deployed s; replayed := ch; started := started s;
     mainPc := mainPc s; regPc := regPc s; probePc := probePc s;
     replayPc := replayPc s; proc := proc s; world := world s |}.
Definition setStarted (ch : Chan) (s : State) : State :=
  {| ctx := ctx s; listenAddr := listenAddr s; engines := engines s;
     deployed := deployed s; replayed := replayed s; started := ch;
     mainPc := mainPc s; regPc := regPc s; probePc := probePc s;
     replayPc := replayPc s; proc := proc s; world := world s |}.
Definition setMainPc (pc : MainPc) (s : State) : State :=
  {| ctx := ctx s; listenAddr := listenAddr s; engines := engines s;
     deployed := deployed s; replayed := replayed s; started := started s;
     mainPc := pc; regPc := regPc s; probePc := probePc s;
     replayPc := replayPc s; proc := proc s; world := world s |}.
Definition setRegPc (pc : RegPc) (s : State) : State :=
  {| ctx := ctx s; listenAddr := listenAddr s; engines := engines s;
     deployed := deployed s; replayed := replayed s; started := started s;
     mainPc := mainPc s; regPc := pc; probePc := probePc s;
     replayPc := replayPc s; proc := proc s; world := world s |}.
Definition setProbePc (pc : ProbePc) (s : State) : State :=
  {| ctx := ctx s; listenAddr := listenAddr s; engines := engines s;
     deployed := deployed s; replayed := replayed s; started := started s;
     mainPc := mainPc s; regPc := regPc s; probePc := pc;
     replayPc := replayPc s; proc := proc s; world := world s |}.
Definition setReplayPc (pc : ReplayPc) (s : State) : State :=
  {| ctx := ctx s; listenAddr := listenAddr s; engines := engines s;
     deployed := deployed s; replayed := replayed s; started := started s;
     mainPc := mainPc s; regPc := regPc s; probePc := probePc s;
     replayPc := pc; proc := proc s; world := world s |}.
Definition setProc (p : Proc) (s : State) : State :=
  {| ctx := ctx s; listenAddr := listenAddr s; engines := engines s;
     deployed := deployed s; replayed := replayed s; started := started s;
     mainPc := mainPc s; regPc := regPc s; probePc := probePc s;
     replayPc := replayPc s; proc := p; world := world s |}.
Definition setWorld (w : World) (s : State) : State :=
  {| ctx := ctx s; listenAddr := listenAddr s; engines := engines s;
     deployed := deployed s; replayed := replayed s; started := started s;
     mainPc := mainPc s; regPc := regPc s; probePc := probePc s;
     replayPc := replayPc s; proc := proc s; world := w |}.

Definition closePanic : Proc := Panicked "close of closed channel".

(** ** [server]: the goroutines, one statement at a time *)

(** [[
      go func() {
          <-replayed
          sd.Register(c)
          close(started)
      }()
    ]] *)
Definition stepRegister (env : Env) (s : State) : option State :=
  match regPc s with
  | RegWait =>
      if recvReady (replayed s) then Some (setRegPc RegCall s) else None
  | RegCall =>
      Some (setRegPc RegClose
              (setWorld (EvRegister (registerOk env) :: world s) s))
  | RegClose =>
      match close (started s) with
      | Some ch =>
          Some (setRegPc RegDone
                  (setStarted ch (setWorld (EvClose Started :: world s) s)))
      | None => Some (setProc closePanic s)
      end
  | RegDone => None
  end.

(** [[
      go func() {
          if err := pingServer(c); err != nil {
              logrus.Fatalln(...)
          }
          logrus.Infoln(...)
          close(deployed)
      }()
    ]]
    [pingServer] advances by one pass of its loop per step;
    [logrus.Fatalln] logs and then exits the process with status 1. *)
Definition stepProbe (env : Env) (s : State) : option State :=
  match probePc s with
  | ProbeLoop i =>
      let (ctl, w') := pingIter (net env) (ctx s) i (world s) in
      match ctl with
      | Return err => Some (setProbePc (ProbeReturned err) (setWorld w' s))
      | Continue j => Some (setProbePc (ProbeLoop j) (setWorld w' s))
      end
  | ProbeReturned err =>
      if errors.is_nil err then
        let w' :=
          snd (logrus_Infoln "The router has been deployed successfully."
                 (world s)) in
        Some (setProbePc ProbeClose (setWorld w' s))
      else
        let w' :=
          EvFatal "The router has no response, or it might took too long to start up."
            :: world s in
        Some (setProc (Exited 1) (setProbePc ProbeFatal (setWorld w' s)))
  | ProbeClose =>
      match close (deployed s) with
      | Some ch =>
          Some (setProbePc ProbeDone
                  (setDeployed ch (setWorld (EvClose Deployed :: world s) s)))
      | None => Some (setProc closePanic s)
      end
  | ProbeFatal => None
  | ProbeDone => None
  end.

(** Modelled from the spec: the event-replay collaborator
    ([middleware.Event], which receives [replayed] and [deployed], is not
    part of these sources). It "exposes a single replay-finished
    completion notification": it closes [replayed] once. Whether it first
    waits for [deployed] is left to the environment. *)
Definition stepReplay (env : Env) (s : State) : option State :=
  match replayPc s with
  | ReplayPending =>
      if replayAfterDeployed env && negb (recvReady (deployed s)) then None
      else
        match close (replayed s) with
        | Some ch =>
            Some (setReplayPc ReplayDone
                    (setReplayed ch
                       (setWorld (EvClose Replayed :: world s) s)))
        | None => Some (setProc closePanic s)
        end
  | ReplayDone => None
  end.

(** [return http.ListenAndServe(c.String("addr"), gin)]: the call blocks
    while the acceptor serves; a step of the main goroutine is the call
    coming back with an error, after which [server], the action,
    [app.Run] and [main] return and the process ends. *)
Definition stepMain (env : Env) (s : State) : option State :=
  match mainPc s with
  | MainServing => Some (setProc (Exited 0) (setMainPc MainReturned s))
  | MainReturned => None
  end.

(** One step of the chosen goroutine; [None] when it is blocked or done,
    or when the process is no longer running. *)
Definition step (env : Env) (t : Thread) (s : State) : option State :=
  match proc s with
  | Running =>
      match t with
      | TMain => stepMain env s
      | TRegister => stepRegister env s
      | TProbe => stepProbe env s
      | TReplay => stepReplay env s
      end
  | _ => None
  end.

(** Running a schedule: a goroutine that cannot move is skipped. *)
Definition run (env : Env) (sched : list Thread) (s : State) : State :=
  fold_left (fun s t => default s (step env t s)) sched s.

(** [server(c, started)] at the point where the routes are loaded, both
    goroutines are launched and the main goroutine enters
    [http.ListenAndServe]. *)
Definition server (c : cli.Context) (started : Chan) : State :=
  let deployed := make in
  let replayed := make in
  let engines := router.Load router.fresh serverMiddlewares in
  {| ctx := c; listenAddr := cli.String c "addr"; engines := engines;
     deployed := deployed; replayed := replayed; started := started;
     mainPc := MainServing; regPc := RegWait; probePc := ProbeLoop 0;
     replayPc := ReplayPending; proc := Running; world := [] |}.

(** [main]: [serverReady := make(chan bool)], then the action runs
    [server(c, serverReady)]. The model starts where [app.Run] has parsed
    the flags into [c] and calls the action. *)
Definition main (c : cli.Context) : State :=
  let serverReady := make in
  server c serverReady.

(** The states an execution of the process can be in. *)
Definition reachable (env : Env) (c : cli.Context) (s : State) : Prop :=
  exists sched, s = run env sched (main c).

(** ** Sample environments *)

Definition alwaysFails : nat -> http.GetResult :=
  fun _ => http.Failed "connection refused".

Definition always503 : nat -> http.GetResult :=
  fun _ => http.Got {| http.StatusCode := 503 |}.

(** Fails until attempt [k] (counting from 1), which answers 200. *)
Definition succeedsAt (k : nat) : nat -> http.GetResult :=
  fun j => if (S j =? k)%nat then http.Got {| http.StatusCode := 200 |}
           else http.Failed "connection refused".


(** ** Vocabulary of the statements *)

Definition probeUrl (c : cli.Context) : string :=
  cli.String c "url" +:+ "/sd/health".

Definition maxPingCount (c : cli.Context) : Z := cli.Int c "max-ping-count".

Definition exhausted : errors.error :=
  errors.New "Cannot connect to the router.".

(** The world after one failed attempt, and after [d] of them in a row. *)
Definition failRound (net : nat -> http.GetResult) (url : string)
    (w : World) : World :=
  EvSleep time.Second
    :: EvInfo "Waiting for the router, retry in 1 second."
    :: EvGet url (net (attempts w)) :: w.

Fixpoint failRounds (net : nat -> http.GetResult) (url : string)
    (d : nat) (w : World) : World :=
  match d with
  | O => w
  | S d' => failRounds net url d' (failRound net url w)
  end.

(** An event with the answer of a GET reduced to what the probe tests. *)
Definition shape (ev : Event) : Event :=
  match ev with
  | EvGet url r =>
      EvGet url
        (if attempt_ok r then http.Got {| http.StatusCode := 200 |}
         else http.Failed "")
  | _ => ev
  end.

(** Some GET of the log was answered with a 200. *)
Definition sawOk (w : World) : Prop :=
  exists url r, In (EvGet url r) w /\ attempt_ok r = true.

(** Every GET of the log went to [url]. *)
Definition getsGoTo (url : string) (w : World) : Prop :=
  forall u r, In (EvGet u r) w -> u = url.

(** Every sleep of the log lasted [d]. *)
Definition sleepsLast (d : Z) (w : World) : Prop :=
  forall x, In (EvSleep x) w -> x = d.

(** The events of [w] that [w'] adds to an older world [w0]. *)
Definition extends (w0 w' : World) : Prop := exists added, w' = added ++ w0.

Definition is_fatal (e : Event) : bool :=
  match e with EvFatal _ => true | _ => false end.

(** No GET of the log was answered with a 200. *)
Definition allFailed (w : World) : Prop :=
  forall url r, In (EvGet url r) w -> attempt_ok r = false.

Definition isPanicked (p : Proc) : bool :=
  match p with Panicked _ => true | _ => false end.

Definition b2n (b : bool) : nat := if b then 1%nat else 0%nat.

(** In the chronological order of the log, [first] happened before
    [second]. *)
Definition happensBefore (first second : Event) (w : World) : Prop :=
  exists newer older, w = newer ++ second :: older /\ In first older.

(** How far the registration goroutine has come. *)
Definition regRank (pc : RegPc) : nat :=
  match pc with
  | RegWait => 0
  | RegCall => 1
  | RegClose => 2
  | RegDone => 3
  end%nat.

Definition isRegister (t : Thread) : bool :=
  match t with TRegister => true | _ => false end.

(** The number of turns a schedule gives to the registration goroutine. *)
Fixpoint registerTurns (sched : list Thread) : nat :=
  match sched with
  | [] => O
  | t :: rest => (b2n (isRegister t) + registerTurns rest)%nat
  end.

(** *** Invariants of the running process *)

(** What never changes after [server] has set things up. *)
Record InvSetup (c : cli.Context) (s : State) : Prop := {
  setup_ctx : ctx s = c;
  setup_addr : listenAddr s = cli.String c "addr";
  setup_engines : engines s = router.Load router.fresh serverMiddlewares
}.

(** Channels against the goroutines that close them. *)
Record InvChan (env : Env) (s : State) : Prop := {
  chan_no_panic : isPanicked (proc s) = false;
  chan_deployed :
    closed (deployed s) = true <-> probePc s = ProbeDone;
  chan_replayed :
    closed (replayed s) = true <-> replayPc s = ReplayDone;
  chan_started :
    closed (started s) = true <-> regPc s = RegDone;
  chan_deployed_count :
    count (is_close Deployed) (world s) = b2n (closed (deployed s));
  chan_replayed_count :
    count (is_close Replayed) (world s) = b2n (closed (replayed s));
  chan_started_count :
    count (is_close Started) (world s) = b2n (closed (started s));
  chan_gate :
    replayAfterDeployed env = true ->
    closed (replayed s) = true -> closed (deployed s) = true
}.

(** The registration goroutine. *)
Definition regInv (env : Env) (s : State) : Prop :=
  match regPc s with
  | RegWait => count is_register (world s) = O
  | RegCall =>
      closed (replayed s) = true /\ count is_register (world s) = O
  | RegClose =>
      closed (replayed s) = true /\ count is_register (world s) = 1%nat /\
      In (EvRegister (registerOk env)) (world s)
  | RegDone =>
      closed (replayed s) = true /\ count is_register (world s) = 1%nat /\
      happensBefore (EvRegister (registerOk env)) (EvClose Started) (world s)
  end.

(** The probe goroutine. *)
Definition probeInv (s : State) : Prop :=
  let n := maxPingCount (ctx s) in
  let w := world s in
  match probePc s with
  | ProbeLoop i =>
      0 <= i /\ (i <= n \/ i = 0) /\ Z.of_nat (attempts w) = i /\
      sleeps w = attempts w /\ allFailed w /\ count is_fatal w = O
  | ProbeReturned err =>
      count is_fatal w = O /\
      ((err = errors.nil /\ sawOk w /\ Z.of_nat (attempts w) <= n) \/
       (err = exhausted /\ allFailed w /\ attempts w = Z.to_nat n /\
        sleeps w = attempts w))
  | ProbeFatal =>
      proc s = Exited 1 /\ count is_fatal w = 1%nat /\
      allFailed w /\ attempts w = Z.to_nat n /\ sleeps w = attempts w
  | ProbeClose => sawOk w /\ Z.of_nat (attempts w) <= n /\ count is_fatal w = O
  | ProbeDone => sawOk w /\ Z.of_nat (attempts w) <= n /\ count is_fatal w = O
  end.

Record InvProbe (s : State) : Prop := {
  probe_pc : probeInv s;
  probe_exit : proc s = Exited 1 -> probePc s = ProbeFatal;
  probe_url : getsGoTo (probeUrl (ctx s)) (world s);
  probe_sleep : sleepsLast time.Second (world s)
}.

Record Inv (env : Env) (c : cli.Context) (s : State) : Prop := {
  inv_setup : InvSetup c s;
  inv_chan : InvChan env s;
  inv_reg : regInv env s;
  inv_probe : InvProbe s
}.

(** *** Statements of the specification that the code does not meet *)

(** Registration and the closing of [started] only with both [replayed]
    and [deployed] closed. *)
Definition registersOnlyAfterBoth (env : Env) (c : cli.Context) : Prop :=
  forall sched,
    let s := run env sched (main c) in
    (0 < count is_register (world s))%nat \/ closed (started s) = true ->
    closed (replayed s) = true /\ closed (deployed s) = true.

(** After an exhausted probe the process has exited and never
    registered. *)
Definition neverRegistersOnExhaustion (env : Env) (c : cli.Context) : Prop :=
  forall sched,
    let s := run env sched (main c) in
    probePc s = ProbeFatal ->
    proc s = Exited 1 /\ count is_register (world s) = O.


(** *** Sample runs *)

(** Replay does not wait for the probe; the target never answers. *)
Definition envReplayFirst : Env :=
  {| net := alwaysFails; registerOk := true; replayAfterDeployed := false |}.

(** Replay waits for [deployed]; the third GET answers 200; the registry
    refuses the registration. *)
Definition envGated : Env :=
  {| net := succeedsAt 3; registerOk := false; replayAfterDeployed := true |}.

(** Replay waits for [deployed]; the target never answers. *)
Definition envGatedDown : Env :=
  {| net := alwaysFails; registerOk := true; replayAfterDeployed := true |}.

Definition schedReplayFirst : list Thread :=
  [TReplay; TRegister; TRegister; TRegister].

Definition schedHappy : list Thread :=
  [TProbe; TReplay; TProbe; TRegister; TProbe; TProbe; TProbe;
   TReplay; TRegister; TRegister; TRegister].

Definition schedExhaust (n : nat) : list Thread :=
  repeat TProbe (n + 2).

(** *** Further vocabulary: the probe in general *)

(** The events a pass of [pingServer]'s loop can add to the log. *)
Definition probeStep (url : string) (ev : Event) : Prop :=
  (exists r, ev = EvGet url r) \/
  ev = EvInfo "Waiting for the router, retry in 1 second." \/
  ev = EvSleep time.Second.

(** What [pingServer], entered with counter [i] on the world [w], leaves
    behind: its error [err] and the world [w']. *)
Definition pingPost (net : nat -> http.GetResult) (c : cli.Context) (i : Z)
    (w : World) (err : errors.error) (w' : World) : Prop :=
  (err = errors.nil \/ err = exhausted) /\
  (err = errors.nil <->
   exists j : nat, Z.of_nat j < maxPingCount c - i /\
                   attempt_ok (net (attempts w + j)%nat) = true) /\
  exists added,
    w' = added ++ w /\
    Forall (probeStep (probeUrl c)) added /\
    Z.of_nat (attempts added) <= Z.max 0 (maxPingCount c - i) /\
    (sleeps added + b2n (errors.is_nil err) = attempts added)%nat /\
    slept added = Z.of_nat (sleeps added) * time.Second.

(** The GETs, log lines and sleeps of a log, in order. *)
Definition is_probe_event (ev : Event) : bool :=
  match ev with
  | EvGet _ _ => true
  | EvInfo _ => true
  | EvSleep _ => true
  | _ => false
  end.

Fixpoint probeEvents (w : World) : World :=
  match w with
  | [] => []
  | ev :: rest =>
      if is_probe_event ev then ev :: probeEvents rest else probeEvents rest
  end.

(** *** Further vocabulary: schedules and progress *)

Definition isProbe (t : Thread) : bool :=
  match t with TProbe => true | _ => false end.

Definition isReplay (t : Thread) : bool :=
  match t with TReplay => true | _ => false end.

(** The number of turns a schedule gives to the goroutines picked by [p]. *)
Fixpoint turns (p : Thread -> bool) (sched : list Thread) : nat :=
  match sched with
  | [] => O
  | t :: rest => (b2n (p t) + turns p rest)%nat
  end.

(** An upper bound on the turns the probe goroutine still needs, for a
    budget [n]. *)
Definition probeRemaining (n : Z) (pc : ProbePc) : nat :=
  match pc with
  | ProbeLoop i => (Z.to_nat (Z.max n 0 - i) + 3)%nat
  | ProbeReturned _ => 2%nat
  | ProbeClose => 1%nat
  | ProbeDone => O
  | ProbeFatal => O
  end.

(** The probe goroutine against [pingServer] run on its own. *)
Definition refineInv (env : Env) (s : State) : Prop :=
  match probePc s with
  | ProbeLoop i =>
      probeEvents (world s)
      = failRounds (net env) (probeUrl (ctx s)) (Z.to_nat i) [] /\
      (forall j, (j < Z.to_nat i)%nat -> attempt_ok (net env j) = false)
  | ProbeReturned err =>
      pingServer (net env) (ctx s) [] = (Some err, probeEvents (world s))
  | _ => True
  end.

(** The order in which a log shows the milestones of the bootstrap. *)
Record InvOrder (env : Env) (w : World) : Prop := {
  order_register :
    forall ok, In (EvRegister ok) w ->
               happensBefore (EvClose Replayed) (EvRegister ok) w;
  order_replayed :
    replayAfterDeployed env = true -> In (EvClose Replayed) w ->
    happensBefore (EvClose Deployed) (EvClose Replayed) w;
  order_deployed :
    In (EvClose Deployed) w ->
    exists url r, attempt_ok r = true /\
                  happensBefore (EvGet url r) (EvClose Deployed) w
}.

(** *** Further vocabulary: the routes *)

Definition builtinMiddlewares : list gin.HandlerFunc :=
  ["gin.LoggerWithWriter"; "gin.Recovery"; "header.NoCache";
   "header.Options"; "header.Secure"].

(** The paths [router.Load] tells [gin.LoggerWithWriter] not to log. *)
Definition loggerSkipPaths : list string :=
  ["/metrics"; "/sd/health"; "/sd/ram"; "/sd/cpu"; "/sd/disk"].

Definition routeKey (r : gin.RouteInfo) : string * string :=
  (gin.Method r, gin.Path r).

(** *** Further statements of the specification that the code does not meet *)

(** A lifetime that is over has seen exactly one registration call and
    exactly one close of [started]. *)
Definition registersExactlyOncePerLifetime (env : Env) (c : cli.Context)
  : Prop :=
  forall sched,
    let s := run env sched (main c) in
    proc s <> Running ->
    count is_register (world s) = 1%nat /\
    count (is_close Started) (world s) = 1%nat.



(** *** Further vocabulary: the acceptor *)



(** ** The pure core of the probe *)

Section ProbeFacts.

Variable net : nat -> http.GetResult.
Variable c : cli.Context.

Lemma wrap_id z : goint.in_range z -> goint.wrap z = z.
Proof.
  unfold goint.in_range, goint.min_int, goint.max_int, goint.wrap.
  intros H. rewrite Z.mod_small; lia.
Qed.

Lemma wrap_in_range z : goint.in_range (goint.wrap z).
Proof.
  unfold goint.in_range, goint.min_int, goint.max_int, goint.wrap.
  pose proof (Z.mod_pos_bound (z + 2 ^ 63) (2 ^ 64) ltac:(lia)). lia.
Qed.

Lemma Int_in_range name : goint.in_range (cli.Int c name).
Proof. apply wrap_in_range. Qed.

Lemma maxPingCount_le : maxPingCount c <= goint.max_int.
Proof. destruct (Int_in_range "max-ping-count"). assumption. Qed.

Lemma add_one_below i :
  0 <= i < maxPingCount c -> goint.add i 1 = i + 1.
Proof.
  intros H. pose proof maxPingCount_le. unfold goint.add.
  apply wrap_id. unfold goint.in_range, goint.min_int, goint.max_int in *.
  lia.
Qed.

Lemma pingIter_end i w :
  maxPingCount c <= i -> pingIter net c i w = (Return exhausted, w).
Proof.
  intros H. unfold pingIter, maxPingCount in *.
  destruct (Z.ltb_spec i (cli.Int c "max-ping-count")); [lia | reflexivity].
Qed.

Lemma pingIter_ok i w :
  i < maxPingCount c -> attempt_ok (net (attempts w)) = true ->
  pingIter net c i w
  = (Return errors.nil, EvGet (probeUrl c) (net (attempts w)) :: w).
Proof.
  intros H Hok. unfold pingIter, maxPingCount in *.
  destruct (Z.ltb_spec i (cli.Int c "max-ping-count")); [| lia].
  unfold bind, http_Get. rewrite Hok. reflexivity.
Qed.

Lemma pingIter_fail i w :
  i < maxPingCount c -> attempt_ok (net (attempts w)) = false ->
  pingIter net c i w
  = (Continue (goint.add i 1), failRound net (probeUrl c) w).
Proof.
  intros H Hko. unfold pingIter, maxPingCount in *.
  destruct (Z.ltb_spec i (cli.Int c "max-ping-count")); [| lia].
  unfold bind, http_Get. rewrite Hko. reflexivity.
Qed.

Lemma attempts_failRound url w :
  attempts (failRound net url w) = S (attempts w).
Proof. reflexivity. Qed.

Lemma attempts_failRounds url d w :
  attempts (failRounds net url d w) = (attempts w + d)%nat.
Proof.
  revert w. induction d as [| d IH]; intros w; simpl.
  - lia.
  - rewrite IH, attempts_failRound. lia.
Qed.

Lemma sleeps_failRounds url d w :
  sleeps (failRounds net url d w) = (sleeps w + d)%nat.
Proof.
  revert w. induction d as [| d IH]; intros w; simpl.
  - lia.
  - rewrite IH. unfold sleeps, failRound. simpl. lia.
Qed.


Lemma extends_failRounds url d w : extends w (failRounds net url d w).
Proof.
  revert w. induction d as [| d IH]; intros w; simpl.
  - exists []. reflexivity.
  - destruct (IH (failRound net url w)) as [added ->].
    exists (added ++ [EvSleep time.Second;
                      EvInfo "Waiting for the router, retry in 1 second.";
                      EvGet url (net (attempts w))]).
    unfold failRound. rewrite <- app_assoc. reflexivity.
Qed.

(** [d] failing attempts in a row take [d] passes of the loop. *)
Lemma pingLoop_fail_rounds d : forall fuel i w,
  0 <= i -> i + Z.of_nat d <= maxPingCount c ->
  (forall j, (j < d)%nat -> attempt_ok (net (attempts w + j)) = false) ->
  pingLoop net (d + fuel) c i w
  = pingLoop net fuel c (i + Z.of_nat d) (failRounds net (probeUrl c) d w).
Proof.
  induction d as [| d IH]; intros fuel i w Hi Hle Hfail.
  - simpl. f_equal. lia.
  - cbn [Nat.add pingLoop]. unfold bind at 1.
    rewrite pingIter_fail; [| lia |].
    2:{ specialize (Hfail O ltac:(lia)). rewrite Nat.add_0_r in Hfail.
        exact Hfail. }
    rewrite add_one_below by lia.
    rewrite IH; [| lia | lia |].
    + cbn [failRounds]. f_equal. lia.
    + intros j Hj. rewrite attempts_failRound.
      specialize (Hfail (S j) ltac:(lia)).
      replace (S (attempts w) + j)%nat with (attempts w + S j)%nat by lia.
      exact Hfail.
Qed.

(** With fuel beyond the remaining budget the loop returns. *)
Lemma pingLoop_returns fuel : forall i w,
  0 <= i -> (Z.to_nat (maxPingCount c - i) < fuel)%nat ->
  exists err w', pingLoop net fuel c i w = (Some err, w').
Proof.
  induction fuel as [| fuel IH]; intros i w Hi Hfuel; [lia |].
  cbn [pingLoop]. unfold bind at 1.
  destruct (Z.lt_ge_cases i (maxPingCount c)) as [Hlt | Hge].
  - destruct (attempt_ok (net (attempts w))) eqn:Hok.
    + rewrite pingIter_ok by assumption. eauto.
    + rewrite pingIter_fail by assumption.
      rewrite add_one_below by lia. apply IH; lia.
  - rewrite pingIter_end by assumption. eauto.
Qed.

Lemma pingServer_returns w :
  exists err w', pingServer net c w = (Some err, w').
Proof. apply pingLoop_returns; fold (maxPingCount c); lia. Qed.

(** Exhaustion: every attempt of the budget fails. *)
Lemma pingServer_exhausts w :
  (forall j, (j < Z.to_nat (maxPingCount c))%nat ->
             attempt_ok (net (attempts w + j)) = false) ->
  pingServer net c w
  = (Some exhausted,
     failRounds net (probeUrl c) (Z.to_nat (maxPingCount c)) w).
Proof.
  intros Hfail. unfold pingServer. fold (maxPingCount c).
  set (d := Z.to_nat (maxPingCount c)) in *.
  replace (S d) with (d + 1)%nat by lia.
  destruct (Z.le_gt_cases (maxPingCount c) 0) as [Hle | Hgt].
  - assert (d = O) as -> by (subst d; lia).
    cbn [Nat.add pingLoop failRounds]. unfold bind.
    rewrite pingIter_end by lia. reflexivity.
  - rewrite pingLoop_fail_rounds; [| lia | subst d; lia | assumption].
    cbn [pingLoop]. unfold bind. rewrite pingIter_end by (subst d; lia).
    reflexivity.
Qed.

(** First success at attempt [k], counted from 1. *)
Lemma pingServer_succeeds (k : nat) w :
  (1 <= k)%nat -> Z.of_nat k <= maxPingCount c ->
  (forall j, (j < k - 1)%nat -> attempt_ok (net (attempts w + j)) = false) ->
  attempt_ok (net (attempts w + (k - 1))) = true ->
  let w1 := failRounds net (probeUrl c) (k - 1) w in
  pingServer net c w
  = (Some errors.nil, EvGet (probeUrl c) (net (attempts w + (k - 1))) :: w1).
Proof.
  intros Hk Hle Hfail Hok w1. subst w1.
  unfold pingServer. fold (maxPingCount c).
  replace (S (Z.to_nat (maxPingCount c)))
    with ((k - 1) + S (Z.to_nat (maxPingCount c) - (k - 1)))%nat by lia.
  rewrite pingLoop_fail_rounds; [| lia | lia | assumption].
  cbn [pingLoop]. unfold bind.
  rewrite pingIter_ok; rewrite ?attempts_failRounds;
    [reflexivity | lia | assumption].
Qed.

End ProbeFacts.

(** ** One step of the process *)

Lemma pingIter_cases net c i w :
  (i < maxPingCount c /\ attempt_ok (net (attempts w)) = true /\
   pingIter net c i w
   = (Return errors.nil, EvGet (probeUrl c) (net (attempts w)) :: w)) \/
  (i < maxPingCount c /\ attempt_ok (net (attempts w)) = false /\
   pingIter net c i w
   = (Continue (goint.add i 1), failRound net (probeUrl c) w)) \/
  (maxPingCount c <= i /\ pingIter net c i w = (Return exhausted, w)).
Proof.
  destruct (Z.lt_ge_cases i (maxPingCount c)) as [Hlt | Hge].
  - destruct (attempt_ok (net (attempts w))) eqn:Hok.
    + left. auto using pingIter_ok.
    + right; left. auto using pingIter_fail.
  - right; right. auto using pingIter_end.
Qed.

Lemma close_Some ch ch' :
  close ch = Some ch' -> closed ch = false /\ closed ch' = true.
Proof.
  unfold close. destruct (closed ch) eqn:E; [discriminate |].
  intros [= <-]. auto.
Qed.

Lemma close_None ch : close ch = None -> closed ch = true.
Proof. unfold close. destruct (closed ch); [auto | discriminate]. Qed.

(** Splits a step into the statement that was executed. *)
Ltac step_cases H :=
  unfold step in H;
  destruct (proc _) eqn:Hproc; try discriminate H;
  match type of H with
  | context [match ?t with TMain => _ | _ => _ end] => destruct t
  end;
  [ unfold stepMain in H; destruct (mainPc _) eqn:Hpc
  | unfold stepRegister in H; destruct (regPc _) eqn:Hpc;
    [ destruct (recvReady (replayed _)) eqn:Hrecv
    | | destruct (close (started _)) as [ch |] eqn:Hclose | ]
  | unfold stepProbe in H; destruct (probePc _) as [i | err | | |] eqn:Hpc;
    [ match type of H with
      | context [pingIter ?n ?c i ?w] =>
          destruct (pingIter_cases n c i w)
            as [(Hlt & Hok & Hit) | [(Hlt & Hok & Hit) | (Hge & Hit)]];
          rewrite Hit in H
      end
    | destruct err as [| text]; cbn [errors.is_nil] in H
    | | destruct (close (deployed _)) as [ch |] eqn:Hclose | ]
  | unfold stepReplay in H; destruct (replayPc _) eqn:Hpc;
    [ destruct (replayAfterDeployed _ && negb (recvReady (deployed _)))
        eqn:Hgate;
      [ | destruct (close (replayed _)) as [ch |] eqn:Hclose ]
    | ] ];
  try discriminate H; injection H as <-.

Section StepFacts.

Variable env : Env.

Lemma step_stopped t s : proc s <> Running -> step env t s = None.
Proof. unfold step. destruct (proc s); [congruence | |]; reflexivity. Qed.

Lemma step_setup c t s s' :
  InvSetup c s -> step env t s = Some s' -> InvSetup c s'.
Proof.
  intros [H1 H2 H3] H. step_cases H; split; assumption.
Qed.

End StepFacts.

(** ** Bookkeeping on the log *)

Lemma count_failRound p net url w :
  p (EvSleep time.Second) = false ->
  p (EvInfo "Waiting for the router, retry in 1 second.") = false ->
  p (EvGet url (net (attempts w))) = false ->
  count p (failRound net url w) = count p w.
Proof.
  intros H1 H2 H3. unfold failRound. cbn [count].
  rewrite H1, H2, H3. reflexivity.
Qed.

Lemma happensBefore_cons a b ev w :
  happensBefore a b w -> happensBefore a b (ev :: w).
Proof.
  intros (newer & older & -> & Hin). exists (ev :: newer), older.
  split; [reflexivity | assumption].
Qed.

Lemma happensBefore_failRound a b net url w :
  happensBefore a b w -> happensBefore a b (failRound net url w).
Proof.
  intros H. unfold failRound. do 3 apply happensBefore_cons. exact H.
Qed.

Lemma In_failRound ev net url w : In ev w -> In ev (failRound net url w).
Proof. intros H. unfold failRound. do 3 right. exact H. Qed.

Lemma allFailed_cons ev w :
  allFailed w -> (forall url r, ev = EvGet url r -> attempt_ok r = false) ->
  allFailed (ev :: w).
Proof.
  intros Hw Hev url r [-> | Hin];
    [eapply Hev; reflexivity | eapply Hw; eassumption].
Qed.

Lemma allFailed_other ev w :
  is_get ev = false -> allFailed w -> allFailed (ev :: w).
Proof.
  intros Hev Hw. apply allFailed_cons; [assumption |].
  intros url r ->. discriminate.
Qed.

Lemma allFailed_failRound net url w :
  allFailed w -> attempt_ok (net (attempts w)) = false ->
  allFailed (failRound net url w).
Proof.
  intros Hw Hko. unfold failRound.
  repeat apply allFailed_cons; try assumption;
    intros ? ? [=]; subst; assumption.
Qed.

Lemma sawOk_cons ev w : sawOk w -> sawOk (ev :: w).
Proof.
  intros (url & r & Hin & Hok). exists url, r.
  split; [right |]; assumption.
Qed.

Lemma sawOk_here url r w : attempt_ok r = true -> sawOk (EvGet url r :: w).
Proof.
  intros Hok. exists url, r. split; [left; reflexivity | assumption].
Qed.

Lemma getsGoTo_cons url ev w :
  getsGoTo url w -> (forall u r, ev = EvGet u r -> u = url) ->
  getsGoTo url (ev :: w).
Proof.
  intros Hw Hev u r [-> | Hin];
    [eapply Hev; reflexivity | eapply Hw; eassumption].
Qed.

Lemma getsGoTo_failRound net url w :
  getsGoTo url w -> getsGoTo url (failRound net url w).
Proof.
  intros Hw. unfold failRound.
  repeat apply getsGoTo_cons; try assumption;
    intros ? ? [=]; subst; reflexivity.
Qed.

Lemma sleepsLast_cons d ev w :
  sleepsLast d w -> (forall x, ev = EvSleep x -> x = d) ->
  sleepsLast d (ev :: w).
Proof.
  intros Hw Hev x [-> | Hin];
    [eapply Hev; reflexivity | eapply Hw; eassumption].
Qed.

Lemma sleepsLast_failRound net url w :
  sleepsLast time.Second w -> sleepsLast time.Second (failRound net url w).
Proof.
  intros Hw. unfold failRound.
  repeat apply sleepsLast_cons; try assumption;
    intros ? [=]; subst; reflexivity.
Qed.

(** ** The invariants hold along every execution *)

Lemma probeInv_frame s s' :
  ctx s' = ctx s -> probePc s' = probePc s -> proc s = Running ->
  attempts (world s') = attempts (world s) ->
  sleeps (world s') = sleeps (world s) ->
  count is_fatal (world s') = count is_fatal (world s) ->
  (allFailed (world s) -> allFailed (world s')) ->
  (sawOk (world s) -> sawOk (world s')) ->
  probeInv s -> probeInv s'.
Proof.
  intros Hc Hpc Hrun Ha Hs Hf Hall Hsaw. unfold probeInv.
  rewrite Hc, Hpc, Ha, Hs, Hf.
  destruct (probePc s); intuition congruence.
Qed.

Ltac close_facts :=
  repeat match goal with
         | Hc : close _ = Some _ |- _ => apply close_Some in Hc; destruct Hc
         | Hc : close _ = None |- _ => apply close_None in Hc
         end.

Section Preservation.

Variable env : Env.

Lemma step_chan t s s' :
  InvChan env s -> step env t s = Some s' -> InvChan env s'.
Proof.
  intros [Hp Hd Hr Hs Hdc Hrc Hsc Hg] H.
  step_cases H; close_facts; split; cbn -[count];
    rewrite ?count_failRound by reflexivity; cbn [count is_close b2n];
    rewrite ?Hpc in *; try assumption; try reflexivity;
    try (intuition congruence).
  all: try (exfalso; intuition congruence).
  all: try (rewrite ?Hdc, ?Hrc, ?Hsc;
            repeat match goal with
                   | Hx : closed _ = _ |- _ => rewrite Hx
                   end; reflexivity).
  intros Hga _. rewrite Hga in Hgate. unfold recvReady in Hgate.
  destruct (closed (deployed s)); [reflexivity | discriminate].
Qed.

Lemma step_reg t s s' :
  InvChan env s -> regInv env s -> step env t s = Some s' -> regInv env s'.
Proof.
  intros [Hp Hd Hr Hs Hdc Hrc Hsc Hg] Hreg H. unfold regInv in *.
  step_cases H; close_facts;
    cbn -[count In happensBefore]; cbn -[count In happensBefore] in Hreg;
    rewrite ?count_failRound by reflexivity; cbn [count is_register];
    try rewrite Hpc in *; try assumption.
  all: try (destruct (regPc s);
            intuition (auto using In_failRound, happensBefore_failRound,
                         happensBefore_cons, in_cons; congruence)).
  - destruct Hreg as [Hrep ->]. repeat split; [assumption |].
    left. reflexivity.
  - destruct Hreg as (Hrep & Hcnt & Hin). repeat split; try assumption.
    exists [], (world s). split; [reflexivity | assumption].
Qed.

Lemma step_probeInv t s s' :
  probeInv s -> step env t s = Some s' -> probeInv s'.
Proof.
  intros Hpi H.
  step_cases H;
    try (eapply probeInv_frame; [.. | exact Hpi];
         first [ reflexivity | assumption
               | apply sawOk_cons
               | apply allFailed_other; reflexivity
               | exact (fun x => x) ]).
  all: unfold probeInv in *; rewrite Hpc in Hpi;
    cbn -[count In attempts sleeps] in *.
  - destruct Hpi as (H0 & Hb & Ha & Hs & Hall & Hf).
    split; [exact Hf |]. left. split; [reflexivity |].
    split; [apply sawOk_here; assumption |].
    unfold attempts in *. cbn [count is_get]. lia.
  - destruct Hpi as (H0 & Hb & Ha & Hs & Hall & Hf).
    rewrite (add_one_below (ctx s)) by lia.
    pose proof (allFailed_failRound (net env) (probeUrl (ctx s)) _ Hall Hok)
      as Hall'.
    unfold sleeps, attempts, failRound in *.
    cbn [count is_get is_sleep is_fatal] in *.
    repeat split; try lia; assumption.
  - destruct Hpi as (H0 & Hb & Ha & Hs & Hall & Hf).
    split; [exact Hf |]. right. repeat split; [assumption | lia | assumption].
  - destruct Hpi as (Hf & [(_ & Hsaw & Hle) | (Habs & _)]); [| discriminate].
    split; [apply sawOk_cons; assumption |]. split; assumption.
  - destruct Hpi as (Hf & [(Habs & _) | (_ & Hall & Ha & Hs)]);
      [discriminate |].
    split; [reflexivity |]. cbn [count is_fatal]. rewrite Hf.
    repeat split; [| exact Ha | exact Hs].
    apply allFailed_other; [reflexivity | assumption].
  - destruct Hpi as (Hsaw & Hle & Hf).
    split; [apply sawOk_cons; assumption |]. split; assumption.
Qed.

Lemma step_probe t s s' :
  InvProbe s -> step env t s = Some s' -> InvProbe s'.
Proof.
  intros [Hpi Hex Hurl Hsl] H. split.
  - eapply step_probeInv; eassumption.
  - step_cases H; cbn; try (intros ?; congruence);
      unfold closePanic; discriminate.
  - step_cases H; cbn -[In];
      first [ assumption
            | apply getsGoTo_failRound; assumption
            | apply getsGoTo_cons;
              [assumption | intros ? ? [=]; subst; reflexivity] ].
  - step_cases H; cbn -[In];
      first [ assumption
            | apply sleepsLast_failRound; assumption
            | apply sleepsLast_cons; [assumption | intros ? [=] ] ].
Qed.

Lemma step_inv c t s s' :
  Inv env c s -> step env t s = Some s' -> Inv env c s'.
Proof.
  intros [H1 H2 H3 H4] H. split.
  - eapply step_setup; eassumption.
  - eapply step_chan; eassumption.
  - eapply step_reg; eassumption.
  - eapply step_probe; eassumption.
Qed.

Lemma main_inv c : Inv env c (main c).
Proof.
  split.
  - split; reflexivity.
  - split; cbn; try reflexivity; try (split; intros; discriminate).
    intros _ ?; discriminate.
  - reflexivity.
  - split; cbn.
    + unfold probeInv. cbn. repeat split; try lia.
      intros ? ? [].
    + discriminate.
    + intros ? ? [].
    + intros ? [].
Qed.

Lemma run_inv c sched : forall s, Inv env c s -> Inv env c (run env sched s).
Proof.
  induction sched as [| t sched IH]; intros s Hs; [exact Hs |].
  cbn [run fold_left]. apply IH.
  destruct (step env t s) as [s' |] eqn:Hstep; cbn [default].
  - eapply step_inv; eassumption.
  - exact Hs.
Qed.

Lemma reachable_inv c sched : Inv env c (run env sched (main c)).
Proof. apply run_inv, main_inv. Qed.

Lemma reachable_Inv c s : reachable env c s -> Inv env c s.
Proof. intros [sched ->]. apply reachable_inv. Qed.

End Preservation.

(** ** The probe: attempts, sleeps and outcome *)

Lemma failRounds_last net url d : forall w,
  failRounds net url (S d) w = failRound net url (failRounds net url d w).
Proof.
  induction d as [| d IH]; intros w; [reflexivity |].
  change (failRounds net url (S (S d)) w)
    with (failRounds net url (S d) (failRound net url w)).
  rewrite IH. reflexivity.
Qed.

Lemma attempts_shape w : attempts (map shape w) = attempts w.
Proof.
  unfold attempts. induction w as [| ev w IH]; [reflexivity |].
  cbn [map count]. rewrite IH. destruct ev; reflexivity.
Qed.

(** One pass of the loop sees the answer only through [attempt_ok]. *)
Lemma pingIter_shape net1 net2 c i w1 w2 :
  attempt_ok (net1 (attempts w1)) = attempt_ok (net2 (attempts w2)) ->
  map shape w1 = map shape w2 ->
  fst (pingIter net1 c i w1) = fst (pingIter net2 c i w2) /\
  map shape (snd (pingIter net1 c i w1))
  = map shape (snd (pingIter net2 c i w2)).
Proof.
  intros Hok Hw. unfold pingIter.
  destruct (i <? cli.Int c "max-ping-count"); [| split; [reflexivity | exact Hw]].
  unfold bind, http_Get, logrus_Infof, time_Sleep, emit, ret.
  rewrite <- Hok.
  destruct (attempt_ok (net1 (attempts w1))) eqn:E1;
    cbn [fst snd map shape]; rewrite <- Hok, E1, Hw; split; reflexivity.
Qed.

Lemma pingLoop_S net fuel c i w :
  pingLoop net (S fuel) c i w
  = match pingIter net c i w with
    | (Return e, w') => (Some e, w')
    | (Continue j, w') => pingLoop net fuel c j w'
    end.
Proof.
  cbn [pingLoop]. unfold bind.
  destruct (pingIter net c i w) as [[e | j] w']; reflexivity.
Qed.

Lemma pingLoop_shape net1 net2 c fuel : forall i w1 w2,
  (forall k, attempt_ok (net1 k) = attempt_ok (net2 k)) ->
  map shape w1 = map shape w2 ->
  fst (pingLoop net1 fuel c i w1) = fst (pingLoop net2 fuel c i w2) /\
  map shape (snd (pingLoop net1 fuel c i w1))
  = map shape (snd (pingLoop net2 fuel c i w2)).
Proof.
  induction fuel as [| fuel IH]; intros i w1 w2 Hnet Hw.
  - split; [reflexivity | exact Hw].
  - assert (attempts w1 = attempts w2) as Ha.
    { rewrite <- (attempts_shape w1), <- (attempts_shape w2), Hw.
      reflexivity. }
    destruct (pingIter_shape net1 net2 c i w1 w2) as [Hctl Hw'];
      [rewrite Ha; apply Hnet | exact Hw |].
    rewrite !pingLoop_S.
    destruct (pingIter net1 c i w1) as [ctl1 w1'].
    destruct (pingIter net2 c i w2) as [ctl2 w2'].
    cbn [fst snd] in Hctl, Hw'. subst ctl2.
    destruct ctl1 as [err | j].
    + split; [reflexivity | exact Hw'].
    + apply IH; assumption.
Qed.

(** C2. Against a target that fails every attempt, [pingServer] returns
    the exhaustion error; with a budget [n >= 1] it has issued exactly [n]
    GETs, and with a budget [n <= 0] it has done nothing at all. *)
Theorem probe_exhausts_after_budget net c w :
  (forall k, attempt_ok (net k) = false) ->
  exists w',
    pingServer net c w = (Some exhausted, w') /\
    extends w w' /\
    (1 <= maxPingCount c ->
     Z.of_nat (attempts w') = Z.of_nat (attempts w) + maxPingCount c) /\
    (maxPingCount c <= 0 -> w' = w).
Proof.
  intros Hfail.
  exists (failRounds net (probeUrl c) (Z.to_nat (maxPingCount c)) w).
  split; [apply pingServer_exhausts; auto |].
  split; [apply extends_failRounds |]. split.
  - intros Hn. rewrite attempts_failRounds. lia.
  - intros Hn. replace (Z.to_nat (maxPingCount c)) with O by lia.
    reflexivity.
Qed.

Lemma probe_exhausts_after_budget_witness :
  (forall k, attempt_ok (alwaysFails k) = false) /\
  exists w',
    pingServer alwaysFails (withMaxPingCount 3) [] = (Some exhausted, w') /\
    extends [] w' /\
    (1 <= maxPingCount (withMaxPingCount 3) ->
     Z.of_nat (attempts w')
     = Z.of_nat (attempts []) + maxPingCount (withMaxPingCount 3)) /\
    (maxPingCount (withMaxPingCount 3) <= 0 -> w' = []).
Proof.
  split.
  - intros k. reflexivity.
  - apply (probe_exhausts_after_budget alwaysFails (withMaxPingCount 3) []).
    intros k. reflexivity.
Defined.

(** C3. When the first successful attempt is the [k]-th, with
    [1 <= k <= n], [pingServer] returns [nil] after exactly [k] GETs and
    [k - 1] sleeps, and the successful GET is the last thing it did. *)
Theorem probe_stops_at_first_success net c w (k : nat) :
  (1 <= k)%nat -> Z.of_nat k <= maxPingCount c ->
  (forall j, (j < k - 1)%nat -> attempt_ok (net (attempts w + j)%nat) = false) ->
  attempt_ok (net (attempts w + (k - 1))%nat) = true ->
  exists r w1,
    pingServer net c w = (Some errors.nil, EvGet (probeUrl c) r :: w1) /\
    attempt_ok r = true /\
    extends w w1 /\
    attempts (EvGet (probeUrl c) r :: w1) = (attempts w + k)%nat /\
    sleeps (EvGet (probeUrl c) r :: w1) = (sleeps w + (k - 1))%nat.
Proof.
  intros Hk Hle Hfail Hok.
  exists (net (attempts w + (k - 1))%nat),
         (failRounds net (probeUrl c) (k - 1) w).
  split; [apply pingServer_succeeds; assumption |].
  split; [assumption |]. split; [apply extends_failRounds |]. split.
  - unfold attempts at 1. cbn [count is_get].
    fold (attempts (failRounds net (probeUrl c) (k - 1) w)).
    rewrite attempts_failRounds. lia.
  - unfold sleeps at 1. cbn [count is_sleep].
    fold (sleeps (failRounds net (probeUrl c) (k - 1) w)).
    rewrite sleeps_failRounds. lia.
Qed.

Lemma probe_stops_at_first_success_witness :
  exists r w1,
    pingServer (succeedsAt 3) (withMaxPingCount 5) []
    = (Some errors.nil,
       EvGet (probeUrl (withMaxPingCount 5)) r :: w1) /\
    attempt_ok r = true /\
    extends [] w1 /\
    attempts (EvGet (probeUrl (withMaxPingCount 5)) r :: w1) = (0 + 3)%nat /\
    sleeps (EvGet (probeUrl (withMaxPingCount 5)) r :: w1) = (0 + (3 - 1))%nat.
Proof.
  apply (probe_stops_at_first_success (succeedsAt 3) (withMaxPingCount 5) [] 3).
  - lia.
  - vm_compute. discriminate.
  - intros j Hj. cbn in Hj.
    destruct j as [| [| j]]; [reflexivity | reflexivity | lia].
  - reflexivity.
Defined.




(** C5. Within the budget, one pass of the loop returns [nil] at once,
    having done nothing but its GET, exactly when [http.Get] came back
    with a response whose status is 200. A response with any other
    status and a transport error are treated alike: the retry line is
    logged, the probe sleeps a second and goes on with the next pass; no
    answer makes the pass return an error. A 200 at the first GET ends
    the whole probe with [nil] after that one GET, and targets that
    always answer another status, or always fail to answer, both exhaust
    the budget in the same way. *)
Theorem attempt_succeeds_iff_status_200 :
  (forall net c i w,
     0 <= i < maxPingCount c ->
     let url := cli.String c "url" +:+ "/sd/health" in
     let retried :=
       (Continue (i + 1),
        EvSleep time.Second
          :: EvInfo "Waiting for the router, retry in 1 second."
          :: EvGet url (net (attempts w)) :: w) in
     (forall resp,
        net (attempts w) = http.Got resp -> http.StatusCode resp = 200 ->
        pingIter net c i w
        = (Return errors.nil, EvGet url (http.Got resp) :: w)) /\
     (forall resp,
        net (attempts w) = http.Got resp -> http.StatusCode resp <> 200 ->
        pingIter net c i w = retried) /\
     (forall err,
        net (attempts w) = http.Failed err -> pingIter net c i w = retried) /\
     (fst (pingIter net c i w) = Return errors.nil <->
      exists resp, net (attempts w) = http.Got resp /\
                   http.StatusCode resp = 200)) /\
  (forall net c w resp,
     1 <= maxPingCount c ->
     net (attempts w) = http.Got resp -> http.StatusCode resp = 200 ->
     pingServer net c w
     = (Some errors.nil,
        EvGet (cli.String c "url" +:+ "/sd/health") (http.Got resp) :: w)) /\
  (forall c w code err,
     code <> 200 ->
     let other := pingServer (fun _ => http.Got {| http.StatusCode := code |})
                    c w in
     let broken := pingServer (fun _ => http.Failed err) c w in
     fst other = Some exhausted /\ fst broken = Some exhausted /\
     attempts (snd other) = (attempts w + Z.to_nat (maxPingCount c))%nat /\
     attempts (snd broken) = attempts (snd other) /\
     sleeps (snd broken) = sleeps (snd other) /\
     map shape (snd broken) = map shape (snd other)).
Proof.
  split; [| split].
  - intros net c i w Hi url retried.
    assert (forall resp, net (attempts w) = http.Got resp ->
              attempt_ok (net (attempts w))
              = (http.StatusCode resp =? 200)) as Hgot
      by (intros resp ->; reflexivity).
    assert (attempt_ok (net (attempts w)) = false ->
            pingIter net c i w = retried) as Hretry.
    { intros Hko. rewrite pingIter_fail by (lia || exact Hko).
      rewrite (add_one_below c) by lia. reflexivity. }
    split; [| split; [| split]].
    + intros resp Hnet Hst. rewrite pingIter_ok; [| lia |].
      * rewrite Hnet. reflexivity.
      * rewrite (Hgot resp Hnet). apply Z.eqb_eq. exact Hst.
    + intros resp Hnet Hst. apply Hretry.
      rewrite (Hgot resp Hnet). apply Z.eqb_neq. exact Hst.
    + intros err Hnet. apply Hretry. rewrite Hnet. reflexivity.
    + destruct (net (attempts w)) as [resp | err] eqn:Hnet.
      * destruct (Z.eq_dec (http.StatusCode resp) 200) as [Hst | Hst].
        -- rewrite pingIter_ok; [| lia |].
           ++ split; [intros _; exists resp; auto | reflexivity].
           ++ rewrite Hnet. apply Z.eqb_eq. exact Hst.
        -- rewrite Hretry by (cbn; apply Z.eqb_neq; exact Hst).
           split; [discriminate |].
           intros (resp' & [= <-] & Hst'). contradiction.
      * rewrite Hretry by reflexivity.
        split; [discriminate |]. intros (resp' & [=] & _).
  - intros net c w resp Hn Hnet Hst.
    pose proof (pingServer_succeeds net c 1 w) as H.
    cbn [Nat.sub failRounds] in H. rewrite Nat.add_0_r, Hnet in H.
    apply H; [lia | lia | intros j Hj; lia |].
    cbn [attempt_ok]. apply Z.eqb_eq. exact Hst.
  - intros c w code err Hcode other broken. subst other broken.
    assert (forall k : nat,
              attempt_ok ((fun _ : nat =>
                             http.Got {| http.StatusCode := code |}) k)
              = false) as Hother
      by (intros k; cbn; apply Z.eqb_neq; exact Hcode).
    assert (pingServer (fun _ : nat => http.Got {| http.StatusCode := code |})
              c w
            = (Some exhausted,
               failRounds (fun _ : nat => http.Got {| http.StatusCode := code |})
                 (probeUrl c) (Z.to_nat (maxPingCount c)) w)) as Ho
      by (apply pingServer_exhausts; intros j _; apply (Hother j)).
    assert (pingServer (fun _ : nat => http.Failed err) c w
            = (Some exhausted,
               failRounds (fun _ : nat => http.Failed err)
                 (probeUrl c) (Z.to_nat (maxPingCount c)) w)) as Hb
      by (apply pingServer_exhausts; intros j _; reflexivity).
    rewrite Ho, Hb.
    cbn [fst snd]. rewrite !attempts_failRounds, !sleeps_failRounds.
    repeat split.
    pose proof (pingLoop_shape (fun _ : nat => http.Failed err)
                  (fun _ : nat => http.Got {| http.StatusCode := code |})
                  c (S (Z.to_nat (cli.Int c "max-ping-count"))) 0 w w)
      as [_ Hshape].
    { intros k. rewrite (Hother k). reflexivity. }
    { reflexivity. }
    fold (pingServer (fun _ : nat => http.Failed err) c w) in Hshape.
    fold (pingServer (fun _ : nat => http.Got {| http.StatusCode := code |})
            c w) in Hshape.
    rewrite Ho, Hb in Hshape. exact Hshape.
Qed.

(** ** The probe goroutine runs [pingServer] *)

Lemma run_app env a b s : run env (a ++ b) s = run env b (run env a s).
Proof. unfold run. apply fold_left_app. Qed.

Lemma run_stopped env sched : forall s,
  proc s <> Running -> run env sched s = s.
Proof.
  induction sched as [| t sched IH]; intros s Hs; [reflexivity |].
  cbn [run fold_left]. rewrite step_stopped by assumption.
  cbn [default]. apply IH. assumption.
Qed.

(** Whatever [pingLoop] returns, the goroutine reaches by taking its
    turns, one pass of the loop per turn. *)
Lemma probe_goroutine_runs_pingLoop env fuel : forall s i err w',
  proc s = Running -> probePc s = ProbeLoop i ->
  pingLoop (net env) fuel (ctx s) i (world s) = (Some err, w') ->
  exists n,
    run env (repeat TProbe n) s
    = setProbePc (ProbeReturned err) (setWorld w' s).
Proof.
  induction fuel as [| fuel IH]; intros s i err w' Hrun Hpc Hloop;
    [discriminate |].
  rewrite pingLoop_S in Hloop.
  destruct (pingIter (net env) (ctx s) i (world s)) as [[e | j] w1] eqn:Hit.
  - injection Hloop as -> ->. exists 1%nat.
    cbn [repeat run fold_left]. unfold step, stepProbe.
    rewrite Hrun, Hpc, Hit. reflexivity.
  - set (s1 := setProbePc (ProbeLoop j) (setWorld w1 s)).
    destruct (IH s1 j err w') as [n Hn]; [assumption | reflexivity | exact Hloop |].
    exists (S n).
    change (repeat TProbe (S n)) with ([TProbe] ++ repeat TProbe n).
    rewrite run_app.
    assert (run env [TProbe] s = s1) as ->.
    { cbn [run fold_left]. unfold step, stepProbe.
      rewrite Hrun, Hpc, Hit. reflexivity. }
    rewrite Hn. reflexivity.
Qed.

Lemma probe_goroutine_runs_pingServer env c err w' :
  pingServer (net env) c [] = (Some err, w') ->
  exists n,
    run env (repeat TProbe n) (main c)
    = setProbePc (ProbeReturned err) (setWorld w' (main c)).
Proof.
  intros H.
  eapply (probe_goroutine_runs_pingLoop env _ (main c) 0 err w');
    [reflexivity | reflexivity | exact H].
Qed.

(** ** Registration *)

(** C1, as the code has it. Along every execution, a registration call
    or a closed [started] means that [replayed] is closed, which is all
    the registration goroutine waits for. [deployed] is closed as well,
    after a GET answered with 200, whenever the replay collaborator
    itself waits for [deployed] before it closes [replayed]. *)
Theorem registration_waits_for_replay env c sched :
  let s := run env sched (main c) in
  (0 < count is_register (world s))%nat \/ closed (started s) = true ->
  closed (replayed s) = true /\
  (replayAfterDeployed env = true ->
   closed (deployed s) = true /\ sawOk (world s)).
Proof.
  intros s Hreg. destruct (reachable_inv env c sched) as [_ Hch Hr Hp].
  fold s in Hch, Hr, Hp.
  assert (closed (replayed s) = true) as Hrep.
  { unfold regInv in Hr. destruct Hreg as [Hcnt | Hst].
    - destruct (regPc s); try lia; tauto.
    - apply (chan_started _ _ Hch) in Hst. rewrite Hst in Hr. tauto. }
  split; [exact Hrep |]. intros Hgate.
  pose proof (chan_gate _ _ Hch Hgate Hrep) as Hdep.
  split; [exact Hdep |].
  apply (chan_deployed _ _ Hch) in Hdep.
  pose proof (probe_pc _ Hp) as Hpi. unfold probeInv in Hpi.
  rewrite Hdep in Hpi. tauto.
Qed.

Lemma registration_waits_for_replay_witness :
  let s := run envGated schedHappy (main defaultContext) in
  closed (started s) = true /\
  closed (replayed s) = true /\
  (replayAfterDeployed envGated = true ->
   closed (deployed s) = true /\ sawOk (world s)).
Proof.
  split; [vm_compute; reflexivity |].
  apply (registration_waits_for_replay envGated defaultContext schedHappy).
  right. vm_compute. reflexivity.
Defined.

(** C1, as worded, fails: when replay finishes before the probe has
    succeeded, the service is registered and [started] is closed while
    [deployed] is still open. *)
Lemma registers_while_deployed_is_open :
  ~ registersOnlyAfterBoth envReplayFirst defaultContext.
Proof.
  intros H. specialize (H schedReplayFirst). cbv zeta in H.
  destruct H as [_ H]; [right; vm_compute; reflexivity |].
  vm_compute in H. discriminate H.
Qed.

(** C6, as the code has it. A probe that comes back with an error makes
    the goroutine log and exit the process with status 1 at its next
    step, and an exhausted [pingServer] always gets there. After that
    nothing runs any more: no goroutine can take a step, [deployed] was
    never closed, and every GET of the budget had failed. The service
    was never registered if the replay collaborator waits for [deployed]
    before it closes [replayed]. *)
Theorem exhaustion_is_fatal env c sched :
  let s := run env sched (main c) in
  let fatal :=
    EvFatal "The router has no response, or it might took too long to start up."
  in
  (forall err, proc s = Running -> probePc s = ProbeReturned err ->
     err <> errors.nil ->
     exists s', step env TProbe s = Some s' /\ proc s' = Exited 1 /\
                probePc s' = ProbeFatal /\ world s' = fatal :: world s) /\
  (forall w', pingServer (net env) c [] = (Some exhausted, w') ->
     exists n, let s' := run env (repeat TProbe n) (main c) in
               proc s' = Exited 1 /\ probePc s' = ProbeFatal /\
               world s' = fatal :: w') /\
  (probePc s = ProbeFatal ->
     proc s = Exited 1 /\
     (forall t, step env t s = None) /\
     (forall more, run env more s = s) /\
     closed (deployed s) = false /\
     allFailed (world s) /\
     attempts (world s) = Z.to_nat (maxPingCount c) /\
     (replayAfterDeployed env = true ->
      closed (replayed s) = false /\ closed (started s) = false /\
      count is_register (world s) = O)).
Proof.
  intros s fatal. destruct (reachable_inv env c sched) as [Hset Hch Hr Hp].
  fold s in Hset, Hch, Hr, Hp. split; [| split].
  - intros err Hrun Hpc Herr. unfold step, stepProbe. rewrite Hrun, Hpc.
    destruct err as [| text]; [congruence |]. cbn [errors.is_nil].
    eexists. split; [reflexivity |]. cbn. auto.
  - intros w' Hping.
    destruct (probe_goroutine_runs_pingServer env c _ _ Hping) as [n Hn].
    exists (n + 1)%nat. cbv zeta.
    rewrite repeat_app, run_app, Hn. cbn. auto.
  - intros Hpc. pose proof (probe_pc _ Hp) as Hpi. unfold probeInv in Hpi.
    rewrite Hpc in Hpi. destruct Hpi as (Hex & _ & Hall & Ha & _).
    rewrite (setup_ctx _ _ Hset) in Ha.
    assert (proc s <> Running) as Hstop by congruence.
    assert (closed (deployed s) = false) as Hdep.
    { destruct (closed (deployed s)) eqn:E; [| reflexivity].
      apply (chan_deployed _ _ Hch) in E. congruence. }
    repeat split; try assumption.
    + intros t. apply step_stopped. assumption.
    + intros more. apply run_stopped. assumption.
    + destruct (closed (replayed s)) eqn:E; [| reflexivity].
      pose proof (chan_gate _ _ Hch H E). congruence.
    + destruct (closed (started s)) eqn:E; [| reflexivity].
      apply (chan_started _ _ Hch) in E. unfold regInv in Hr.
      rewrite E in Hr. destruct Hr as [Hrep _].
      pose proof (chan_gate _ _ Hch H Hrep). congruence.
    + unfold regInv in Hr.
      destruct (regPc s); try assumption; destruct Hr as [Hrep _];
        pose proof (chan_gate _ _ Hch H Hrep); congruence.
Qed.

(** C6, as worded, fails: replay finishes first, the service is
    registered, and then the probe runs out of its budget and the
    process exits. *)
Lemma registered_before_fatal_exit :
  ~ neverRegistersOnExhaustion envReplayFirst (withMaxPingCount 1).
Proof.
  intros H. specialize (H (schedReplayFirst ++ schedExhaust 1)).
  cbv zeta in H. destruct H as [_ H]; [vm_compute; reflexivity |].
  vm_compute in H. discriminate H.
Qed.

Lemma run_cons env t sched s :
  run env (t :: sched) s = run env sched (default s (step env t s)).
Proof. reflexivity. Qed.

(** Other goroutines leave the registration goroutine where it is, and
    no step reopens [replayed]. *)
Lemma step_keeps_replayed env t s s' :
  step env t s = Some s' ->
  closed (replayed s) = true -> closed (replayed s') = true.
Proof.
  intros H Hrep. step_cases H; close_facts; cbn; congruence.
Qed.

Lemma step_other_regPc env t s s' :
  step env t s = Some s' -> isRegister t = false -> regPc s' = regPc s.
Proof.
  intros H Ht. step_cases H; cbn; try reflexivity; discriminate.
Qed.

Lemma step_register_rank env s s' :
  step env TRegister s = Some s' -> isPanicked (proc s') = false ->
  regRank (regPc s') = S (regRank (regPc s)).
Proof.
  intros H Hnp. unfold step, stepRegister in H.
  destruct (proc s); try discriminate.
  destruct (regPc s);
    [ destruct (recvReady (replayed s)) | | destruct (close (started s)) | ];
    try discriminate; injection H as <-; cbn in *;
    try reflexivity; discriminate.
Qed.

Lemma run_running env sched s :
  proc (run env sched s) = Running -> proc s = Running.
Proof.
  intros H. destruct (proc s) eqn:E; [reflexivity | |];
    rewrite run_stopped in H by congruence; congruence.
Qed.

(** With [replayed] closed, each turn of the registration goroutine
    takes it one statement further, whatever the others do meanwhile,
    as long as the process is alive at the end. *)
Lemma register_progress env c more : forall s,
  Inv env c s -> closed (replayed s) = true ->
  proc (run env more s) = Running ->
  (Nat.min 3 (regRank (regPc s) + registerTurns more)
   <= regRank (regPc (run env more s)))%nat.
Proof.
  induction more as [| t more IH]; intros s Hinv Hrep Hlive.
  - cbn [run fold_left registerTurns]. lia.
  - rewrite run_cons in Hlive |- *.
    pose proof (run_running _ _ _ Hlive) as Hrun1.
    destruct (step env t s) as [s1 |] eqn:Hstep;
      cbn [default from_option] in *; unfold id in *.
    + pose proof (step_inv env c t s s1 Hinv Hstep) as Hinv1.
      pose proof (step_keeps_replayed env t s s1 Hstep Hrep) as Hrep1.
      specialize (IH s1 Hinv1 Hrep1 Hlive).
      cbn [registerTurns].
      destruct t; cbn [isRegister b2n];
        try (rewrite (step_other_regPc env _ s s1 Hstep eq_refl) in IH;
             exact IH).
      pose proof (chan_no_panic _ _ (inv_chan _ _ _ Hinv1)) as Hnp.
      rewrite (step_register_rank env s s1 Hstep Hnp) in IH. lia.
    + assert (proc s = Running) as Hrun by (apply (run_running env more); exact Hlive).
      specialize (IH s Hinv Hrep Hlive). cbn [registerTurns].
      destruct t; cbn [isRegister b2n]; try exact IH.
      unfold step, stepRegister, recvReady in Hstep.
      rewrite Hrun, Hrep in Hstep.
      destruct (regPc s) eqn:Hpc; try discriminate; cbn [regRank] in *;
        [destruct (close (started s)); discriminate | lia].
Qed.

(** The statements of the registration goroutine, one by one. *)
Lemma register_recv env s :
  proc s = Running -> regPc s = RegWait -> closed (replayed s) = true ->
  step env TRegister s = Some (setRegPc RegCall s).
Proof.
  intros Hrun Hpc Hrep. unfold step, stepRegister, recvReady.
  rewrite Hrun, Hpc, Hrep. reflexivity.
Qed.

Lemma register_call env s :
  proc s = Running -> regPc s = RegCall ->
  step env TRegister s
  = Some (setRegPc RegClose
            (setWorld (EvRegister (registerOk env) :: world s) s)).
Proof.
  intros Hrun Hpc. unfold step, stepRegister. rewrite Hrun, Hpc. reflexivity.
Qed.

Lemma register_close env s :
  proc s = Running -> regPc s = RegClose -> closed (started s) = false ->
  step env TRegister s
  = Some (setRegPc RegDone
            (setStarted {| closed := true |}
               (setWorld (EvClose Started :: world s) s))).
Proof.
  intros Hrun Hpc Hcl. unfold step, stepRegister, close.
  rewrite Hrun, Hpc, Hcl. reflexivity.
Qed.

Lemma register_done env s :
  regPc s = RegDone -> step env TRegister s = None.
Proof.
  intros Hpc. unfold step, stepRegister. rewrite Hpc.
  destruct (proc s); reflexivity.
Qed.

(** In a live process whose [replayed] is closed, three turns in a row
    take the registration goroutine to its end and leave the process
    running. *)
Lemma register_three_turns env c s :
  Inv env c s -> proc s = Running -> closed (replayed s) = true ->
  let s' := run env [TRegister; TRegister; TRegister] s in
  proc s' = Running /\ regPc s' = RegDone /\ closed (started s') = true /\
  count is_register (world s') = 1%nat /\
  count (is_close Started) (world s') = 1%nat /\
  In (EvRegister (registerOk env)) (world s').
Proof.
  intros [_ Hch Hr _] Hrun Hrep s'. subst s'.
  pose proof (chan_started _ _ Hch) as Hst.
  pose proof (chan_started_count _ _ Hch) as Hsc.
  unfold regInv in Hr.
  assert (regPc s <> RegDone -> closed (started s) = false) as Hopen.
  { intros Hne. destruct (closed (started s)) eqn:E; [| reflexivity].
    exfalso. apply Hne, Hst. reflexivity. }
  destruct (regPc s) eqn:Hpc.
  - rewrite run_cons, (register_recv env s) by assumption.
    cbn [default from_option]. unfold id.
    rewrite run_cons, register_call by (cbn; first [assumption | reflexivity]).
    cbn [default from_option]. unfold id.
    rewrite run_cons, register_close
      by (cbn; first [assumption | reflexivity | apply Hopen; discriminate]).
    cbn. rewrite Hr, Hsc, Hopen by discriminate. intuition auto.
  - rewrite run_cons, register_call by assumption.
    cbn [default from_option]. unfold id.
    rewrite run_cons, register_close
      by (cbn; first [assumption | reflexivity | apply Hopen; discriminate]).
    cbn [default from_option]. unfold id.
    rewrite run_cons, register_done by reflexivity.
    cbn. destruct Hr as [_ ->]. rewrite Hsc, Hopen by discriminate.
    intuition auto.
  - rewrite run_cons, register_close
      by (first [assumption | apply Hopen; discriminate]).
    cbn [default from_option]. unfold id.
    rewrite run_cons, register_done by reflexivity.
    cbn [default from_option]. unfold id.
    rewrite run_cons, register_done by reflexivity.
    cbn. destruct Hr as (_ & -> & Hin). rewrite Hsc, Hopen by discriminate.
    intuition auto.
  - rewrite !run_cons, !register_done by assumption.
    cbn [default from_option run fold_left].
    destruct Hr as (_ & Hcnt & (newer & older & Hw & Hin)).
    rewrite Hsc, (proj2 Hst eq_refl).
    repeat split; try assumption; try reflexivity.
    rewrite Hw. apply in_or_app. right. right. exact Hin.
Qed.

(** C7, as the code has it. In a lifetime the registration collaborator
    is called at most once and [started] is closed at most once, not at
    all when the process ends before replay completes; when [started] is
    closed the one call has been made, and before the close. The call,
    whatever its outcome, only logs that outcome and leaves the process
    running at [close(started)], and that close goes through: with
    [replayed] closed, three turns of the goroutine in a row, or three
    turns interleaved with anything in a process that stays alive, make
    exactly one call and exactly one close. *)
Theorem registers_at_most_once_then_closes_started env c sched :
  let s := run env sched (main c) in
  (count is_register (world s) <= 1)%nat /\
  (count (is_close Started) (world s) <= 1)%nat /\
  (closed (started s) = true ->
   count is_register (world s) = 1%nat /\
   count (is_close Started) (world s) = 1%nat /\
   happensBefore (EvRegister (registerOk env)) (EvClose Started) (world s)) /\
  (proc s = Running -> regPc s = RegCall ->
   step env TRegister s
   = Some (setRegPc RegClose
             (setWorld (EvRegister (registerOk env) :: world s) s))) /\
  (proc s = Running -> regPc s = RegClose ->
   step env TRegister s
   = Some (setRegPc RegDone
             (setStarted {| closed := true |}
                (setWorld (EvClose Started :: world s) s)))) /\
  (proc s = Running -> closed (replayed s) = true ->
   let s' := run env [TRegister; TRegister; TRegister] s in
   proc s' = Running /\ regPc s' = RegDone /\ closed (started s') = true /\
   count is_register (world s') = 1%nat /\
   count (is_close Started) (world s') = 1%nat /\
   In (EvRegister (registerOk env)) (world s')) /\
  (forall more,
     let s' := run env more s in
     closed (replayed s) = true -> proc s' = Running ->
     (3 <= registerTurns more)%nat ->
     regPc s' = RegDone /\ closed (started s') = true /\
     count is_register (world s') = 1%nat /\
     count (is_close Started) (world s') = 1%nat).
Proof.
  intros s.
  assert (forall st, Inv env c st ->
            (closed (started st) = true <-> regPc st = RegDone) /\
            (regPc st = RegDone ->
             count is_register (world st) = 1%nat /\
             count (is_close Started) (world st) = 1%nat /\
             happensBefore (EvRegister (registerOk env)) (EvClose Started)
               (world st))) as Hdone.
  { intros st [_ Hch Hr _].
    pose proof (chan_started _ _ Hch) as Hst.
    pose proof (chan_started_count _ _ Hch) as Hsc.
    split; [exact Hst |]. intros Hpc. unfold regInv in Hr.
    rewrite Hpc in Hr. destruct Hr as (_ & Hcnt & Hb).
    rewrite Hsc, (proj2 Hst Hpc). auto. }
  pose proof (reachable_inv env c sched) as Hinv. fold s in Hinv.
  destruct (Hdone s Hinv) as [Hst Hall].
  pose proof (inv_reg _ _ _ Hinv) as Hr. unfold regInv in Hr.
  pose proof (chan_started_count _ _ (inv_chan _ _ _ Hinv)) as Hsc.
  split; [destruct (regPc s); lia |].
  split; [rewrite Hsc; destruct (closed (started s)); cbn; lia |].
  split; [intros Hcl; apply Hall, Hst, Hcl |].
  split; [intros Hrun Hpc; apply register_call; assumption |].
  split.
  { intros Hrun Hpc. apply register_close; try assumption.
    destruct (closed (started s)) eqn:E; [| reflexivity].
    pose proof (proj1 Hst eq_refl). congruence. }
  split; [intros Hrun Hrep; apply (register_three_turns env c); assumption |].
  intros more s' Hrep Hlive Hturns.
  pose proof (run_inv env c more s Hinv) as Hinv'. fold s' in Hinv'.
  pose proof (register_progress env c more s Hinv Hrep Hlive) as Hprog.
  fold s' in Hprog.
  assert (regPc s' = RegDone) as Hpc'
    by (destruct (regPc s'); cbn [regRank] in Hprog; try lia; reflexivity).
  destruct (Hdone s' Hinv') as [Hst' Hall'].
  destruct (Hall' Hpc') as (Hc1 & Hc2 & _).
  split; [exact Hpc' |]. split; [apply Hst', Hpc' |]. split; assumption.
Qed.

(** C7, as worded, fails: a lifetime that ends with the probe's fatal
    exit has seen no registration call and no close of [started]. *)
Lemma fatal_lifetime_registers_nothing :
  ~ registersExactlyOncePerLifetime envGatedDown (withMaxPingCount 1).
Proof.
  intros H. specialize (H (schedExhaust 1)). cbv zeta in H.
  destruct H as [H _]; [vm_compute; discriminate |].
  vm_compute in H. discriminate H.
Qed.

(** ** One-shot channels *)

(** C10. Along every execution no close ever hits a closed channel, so
    the process never panics, and each of [deployed], [replayed] and
    [started] is closed at most once. A step that closes [deployed] is a
    step of the probe goroutine, taken after a GET was answered with
    200; one that closes [started] is a step of the registration
    goroutine; one that closes [replayed] is a step of the replay
    collaborator. *)
Theorem channels_closed_at_most_once env c sched :
  let s := run env sched (main c) in
  isPanicked (proc s) = false /\
  (forall ch, (count (is_close ch) (world s) <= 1)%nat) /\
  (forall t s', step env t s = Some s' ->
     isPanicked (proc s') = false /\
     (closed (deployed s) = false -> closed (deployed s') = true ->
      t = TProbe /\ sawOk (world s)) /\
     (closed (started s) = false -> closed (started s') = true ->
      t = TRegister) /\
     (closed (replayed s) = false -> closed (replayed s') = true ->
      t = TReplay)).
Proof.
  intros s. pose proof (reachable_inv env c sched) as Hinv. fold s in Hinv.
  destruct Hinv as [Hset Hch Hr Hp].
  split; [exact (chan_no_panic _ _ Hch) |]. split.
  - intros [| |].
    + rewrite (chan_deployed_count _ _ Hch).
      destruct (closed (deployed s)); cbn; lia.
    + rewrite (chan_replayed_count _ _ Hch).
      destruct (closed (replayed s)); cbn; lia.
    + rewrite (chan_started_count _ _ Hch).
      destruct (closed (started s)); cbn; lia.
  - intros t s' Hstep.
    split; [exact (chan_no_panic _ _ (step_chan env t s s' Hch Hstep)) |].
    pose proof (probe_pc _ Hp) as Hpi. unfold probeInv in Hpi.
    step_cases Hstep; close_facts; cbn;
      repeat split; intros; try congruence.
    tauto.
Qed.

(** ** The probe's target and its constants *)

Lemma Routes_handle method grp rel h g0 :
  gin.Routes (gin.handle method grp rel h g0)
  = gin.Routes g0 ++
    [ {| gin.Method := method;
         gin.Path := gin.joinPaths (gin.basePath grp) rel;
         gin.Chain := gin.groupHandlers grp ++ [h] |} ].
Proof. reflexivity. Qed.

Lemma Handlers_handle method grp rel h g0 :
  gin.Handlers (gin.handle method grp rel h g0) = gin.Handlers g0.
Proof. reflexivity. Qed.





(** C9. The attempt budget is 20 when none is supplied, and a sleep of
    the probe lasts one second, whatever the context says. The context
    the process reads its budget from is the one it was started with
    along every execution, and the process never issues more GETs than
    that budget. *)
Theorem probe_budget_and_interval env c sched :
  maxPingCount defaultContext = 20 /\
  (forall c' : cli.Context,
     cli.flags c' = serverFlags ->
     cli.intArgs c' !! "max-ping-count" = None ->
     maxPingCount c' = 20) /\
  time.Second = 1000000000 * time.Nanosecond /\
  let s := run env sched (main c) in
  ctx s = c /\
  sleepsLast time.Second (world s) /\
  Z.of_nat (attempts (world s)) <= Z.max 0 (maxPingCount c).
Proof.
  split; [reflexivity |]. split.
  { intros c' Hflags Hnone. unfold maxPingCount, cli.Int.
    rewrite Hnone, Hflags. reflexivity. }
  split; [reflexivity |].
  intros s. destruct (reachable_inv env c sched) as [Hset _ _ Hp].
  fold s in Hset, Hp. pose proof (setup_ctx _ _ Hset) as Hctx.
  split; [exact Hctx |]. split; [exact (probe_sleep _ Hp) |].
  pose proof (probe_pc _ Hp) as Hpi. unfold probeInv in Hpi.
  rewrite Hctx in Hpi.
  destruct (probePc s); lia.
Qed.

(** ** Sample runs, evaluated *)

(** Budget 3, the target answers 200 at the third GET: success after 3
    GETs and 2 seconds of sleep. *)
Example budget_3_success_at_3 :
  let r := pingServer (succeedsAt 3) (withMaxPingCount 3) [] in
  fst r = Some errors.nil /\ attempts (snd r) = 3%nat /\
  slept (snd r) = 2 * time.Second.
Proof. vm_compute. auto. Qed.

(** Budget 5, the target is down, replay waits for the probe: the probe
    goroutine gives up after 5 GETs and 5 seconds of sleep, the process
    exits with status 1, and the registration goroutine never gets past
    [<-replayed]. *)
Example budget_5_target_down :
  let s := run envGatedDown (schedExhaust 5 ++ [TReplay; TRegister])
             (main (withMaxPingCount 5)) in
  proc s = Exited 1 /\ attempts (world s) = 5%nat /\
  slept (world s) = 5 * time.Second /\
  regPc s = RegWait /\ count is_register (world s) = O.
Proof. vm_compute. auto 6. Qed.

(** A 503 is retried like a refused connection. *)
Example status_503_is_retried :
  let r := pingServer always503 (withMaxPingCount 2) [] in
  fst r = Some exhausted /\ attempts (snd r) = 2%nat /\
  sleeps (snd r) = 2%nat.
Proof. vm_compute. auto. Qed.

(** ** The probe against any target *)

Lemma count_app p a b : count p (a ++ b) = (count p a + count p b)%nat.
Proof.
  induction a as [| ev a IH]; [reflexivity |].
  cbn [app count]. rewrite IH. lia.
Qed.

Lemma slept_app a b : slept (a ++ b) = slept a + slept b.
Proof.
  induction a as [| ev a IH]; [reflexivity |].
  cbn [app slept]. destruct ev; rewrite ?IH; lia.
Qed.

(** Whatever the target does, the loop entered at [i] with enough fuel
    returns, and [pingPost] describes what it leaves. *)
Lemma pingLoop_post net c fuel : forall i w,
  0 <= i -> (Z.to_nat (maxPingCount c - i) < fuel)%nat ->
  exists err w',
    pingLoop net fuel c i w = (Some err, w') /\ pingPost net c i w err w'.
Proof.
  induction fuel as [| fuel IH]; intros i w Hi Hfuel; [lia |].
  rewrite pingLoop_S.
  destruct (pingIter_cases net c i w)
    as [(Hlt & Hok & Hit) | [(Hlt & Hko & Hit) | (Hge & Hit)]]; rewrite Hit.
  - exists errors.nil, (EvGet (probeUrl c) (net (attempts w)) :: w).
    split; [reflexivity |]. split; [left; reflexivity |]. split.
    + split; [| reflexivity]. intros _. exists O.
      rewrite Nat.add_0_r. split; [cbn; lia | exact Hok].
    + exists [EvGet (probeUrl c) (net (attempts w))].
      split; [reflexivity |]. split.
      * constructor; [left; eauto | constructor].
      * cbn. repeat split; lia.
  - rewrite (add_one_below c) by lia.
    destruct (IH (i + 1) (failRound net (probeUrl c) w))
      as (err & w' & Hloop & Herr & Hiff & added & Hw' & Hall & Ha & Hs & Ht);
      [lia | lia |].
    exists err, w'. split; [exact Hloop |]. split; [exact Herr |]. split.
    + rewrite Hiff, attempts_failRound. split.
      * intros (j & Hj & Hjok). exists (S j). split; [lia |].
        replace (attempts w + S j)%nat with (S (attempts w) + j)%nat by lia.
        exact Hjok.
      * intros (j & Hj & Hjok). destruct j as [| j].
        -- rewrite Nat.add_0_r in Hjok. congruence.
        -- exists j. split; [lia |].
           replace (S (attempts w) + j)%nat with (attempts w + S j)%nat by lia.
           exact Hjok.
    + exists (added ++ [EvSleep time.Second;
                        EvInfo "Waiting for the router, retry in 1 second.";
                        EvGet (probeUrl c) (net (attempts w))]).
      split; [rewrite Hw'; unfold failRound; rewrite <- app_assoc; reflexivity |].
      split.
      * apply Forall_app. split; [exact Hall |].
        constructor; [right; right; reflexivity |].
        constructor; [right; left; reflexivity |].
        constructor; [left; eexists; reflexivity | constructor].
      * unfold attempts, sleeps in *. rewrite !count_app, slept_app.
        cbn [count is_get is_sleep slept]. rewrite Ht.
        repeat split; lia.
  - exists exhausted, w. split; [reflexivity |].
    split; [right; reflexivity |]. split.
    + split; [discriminate |]. intros (j & Hj & _). lia.
    + exists []. split; [reflexivity |]. split; [constructor |].
      cbn. repeat split; lia.
Qed.

Lemma pingServer_post net c w :
  exists err w',
    pingServer net c w = (Some err, w') /\ pingPost net c 0 w err w'.
Proof. apply pingLoop_post; fold (maxPingCount c); lia. Qed.

(** [pingServer] returns [nil] exactly when one of the first [n] answers
    it gets passes the test, [n] being the budget; in every other case it
    returns the one error it has. *)
Theorem pingServer_nil_iff_an_attempt_ok net c w :
  exists err w',
    pingServer net c w = (Some err, w') /\
    (err = errors.nil \/ err = exhausted) /\
    (err = errors.nil <->
     exists j : nat, Z.of_nat j < maxPingCount c /\
                     attempt_ok (net (attempts w + j)%nat) = true).
Proof.
  destruct (pingServer_post net c w) as (err & w' & Hp & Herr & Hiff & _).
  exists err, w'. rewrite Z.sub_0_r in Hiff. auto.
Qed.

(** When [pingServer] returns, its GETs having come back with the
    answers [net] gives, it has sent at most [n] GETs and slept one
    second after each one that failed and after no other, hence at most
    [n] seconds in all. *)
Theorem pingServer_cost_is_bounded net c w err w' :
  pingServer net c w = (Some err, w') ->
  let gets := Z.of_nat (attempts w') - Z.of_nat (attempts w) in
  let naps := Z.of_nat (sleeps w') - Z.of_nat (sleeps w) in
  0 <= gets <= Z.max 0 (maxPingCount c) /\
  naps = gets - Z.of_nat (b2n (errors.is_nil err)) /\
  slept w' - slept w = naps * time.Second /\
  slept w' - slept w <= Z.max 0 (maxPingCount c) * time.Second.
Proof.
  intros Hret.
  destruct (pingServer_post net c w)
    as (err0 & w0 & Hp & _ & _ & added & -> & _ & Ha & Hs & Ht).
  rewrite Hp in Hret. injection Hret as -> <-.
  unfold attempts, sleeps in *. rewrite !count_app, slept_app, Ht.
  rewrite Z.sub_0_r in Ha. unfold time.Second, time.Nanosecond.
  cbv zeta. repeat split; lia.
Qed.

Lemma pingServer_cost_is_bounded_witness :
  let w' := snd (pingServer alwaysFails (withMaxPingCount 3) []) in
  let gets := Z.of_nat (attempts w') - Z.of_nat (attempts []) in
  let naps := Z.of_nat (sleeps w') - Z.of_nat (sleeps []) in
  0 <= gets <= Z.max 0 (maxPingCount (withMaxPingCount 3)) /\
  naps = gets - Z.of_nat (b2n (errors.is_nil exhausted)) /\
  slept w' - slept [] = naps * time.Second /\
  slept w' - slept []
  <= Z.max 0 (maxPingCount (withMaxPingCount 3)) * time.Second.
Proof.
  apply (pingServer_cost_is_bounded alwaysFails (withMaxPingCount 3) []
           exhausted).
  vm_compute. reflexivity.
Defined.

(** [pingServer] only appends to the log, and what it appends are GETs
    to the service URL followed by ["/sd/health"], its retry line and
    sleeps of one second: it closes no channel, registers nothing and
    never logs fatally. *)
Theorem pingServer_only_probes net c w :
  exists err w' added,
    pingServer net c w = (Some err, w') /\
    w' = added ++ w /\
    Forall (probeStep (cli.String c "url" +:+ "/sd/health")) added /\
    count is_register added = O /\ count is_fatal added = O /\
    (forall ch, count (is_close ch) added = O).
Proof.
  destruct (pingServer_post net c w)
    as (err & w' & Hp & _ & _ & added & Hw' & Hall & _).
  exists err, w', added. split; [exact Hp |]. split; [exact Hw' |].
  split; [exact Hall |].
  clear Hp Hw'. induction Hall as [| ev added Hev _ IH].
  - repeat split.
  - destruct IH as (IH1 & IH2 & IH3). cbn [count].
    destruct Hev as [[r ->] | [-> | ->]]; cbn; repeat split; try assumption;
      intros ch; rewrite IH3; destruct ch; reflexivity.
Qed.

(** Of the whole context [pingServer] reads the budget and the URL and
    nothing else. *)
Theorem pingServer_reads_budget_and_url net c1 c2 w :
  cli.Int c1 "max-ping-count" = cli.Int c2 "max-ping-count" ->
  cli.String c1 "url" = cli.String c2 "url" ->
  pingServer net c1 w = pingServer net c2 w.
Proof.
  intros Hn Hu. unfold pingServer. rewrite Hn.
  generalize (S (Z.to_nat (cli.Int c2 "max-ping-count"))) as fuel.
  generalize 0 as i. intros i fuel. revert i w.
  induction fuel as [| fuel IH]; intros i w; [reflexivity |].
  rewrite !pingLoop_S.
  assert (pingIter net c1 i w = pingIter net c2 i w) as ->.
  { unfold pingIter. rewrite Hn, Hu. reflexivity. }
  destruct (pingIter net c2 i w) as [[err | j] w']; [reflexivity | apply IH].
Qed.

Lemma pingServer_reads_budget_and_url_witness :
  pingServer alwaysFails (withMaxPingCount 20) []
  = pingServer alwaysFails defaultContext [].
Proof.
  apply (pingServer_reads_budget_and_url alwaysFails
           (withMaxPingCount 20) defaultContext []); reflexivity.
Defined.

Lemma pingLoop_larger_budget net c c' fuel : forall fuel' i w w',
  cli.String c "url" = cli.String c' "url" ->
  maxPingCount c <= maxPingCount c' -> (fuel <= fuel')%nat ->
  pingLoop net fuel c i w = (Some errors.nil, w') ->
  pingLoop net fuel' c' i w = (Some errors.nil, w').
Proof.
  induction fuel as [| fuel IH]; intros fuel' i w w' Hu Hn Hf Hloop;
    [discriminate |].
  destruct fuel' as [| fuel']; [lia |].
  rewrite pingLoop_S in Hloop |- *.
  destruct (Z.lt_ge_cases i (maxPingCount c)) as [Hlt | Hge].
  - assert (pingIter net c' i w = pingIter net c i w) as ->.
    { unfold pingIter, maxPingCount in *. rewrite Hu.
      destruct (Z.ltb_spec i (cli.Int c "max-ping-count")); [| lia].
      destruct (Z.ltb_spec i (cli.Int c' "max-ping-count")); [| lia].
      reflexivity. }
    destruct (pingIter net c i w) as [[err | j] w1]; [exact Hloop |].
    apply (IH fuel' j w1 w' Hu Hn); [lia | exact Hloop].
  - rewrite pingIter_end in Hloop by assumption. discriminate.
Qed.

(** A probe that succeeds within a budget does exactly the same within
    any larger budget: the remaining budget is never touched. *)
Theorem pingServer_success_needs_no_more_budget net c c' w w' :
  cli.String c "url" = cli.String c' "url" ->
  maxPingCount c <= maxPingCount c' ->
  pingServer net c w = (Some errors.nil, w') ->
  pingServer net c' w = (Some errors.nil, w').
Proof.
  intros Hu Hn Hp. unfold pingServer in *.
  eapply (pingLoop_larger_budget net c c' _ _ 0 w w' Hu Hn); [| exact Hp].
  unfold maxPingCount in Hn. lia.
Qed.

Lemma pingServer_success_needs_no_more_budget_witness :
  pingServer (succeedsAt 3) (withMaxPingCount 5) []
  = (Some errors.nil,
     snd (pingServer (succeedsAt 3) (withMaxPingCount 3) [])).
Proof.
  apply (pingServer_success_needs_no_more_budget (succeedsAt 3)
           (withMaxPingCount 3) (withMaxPingCount 5) []).
  - reflexivity.
  - vm_compute. discriminate.
  - vm_compute. reflexivity.
Defined.

(** ** [router.Load] on the engine of [server] *)

(** On the fresh engine that [server] creates, and whatever middlewares
    the caller passes, the middlewares are all installed before the
    first route: each of the ten routes that [Load] registers itself
    runs [Load]'s five middlewares, then the caller's, in that order,
    before its handler, and that list is the engine's middleware list in
    the end. *)
Theorem Load_routes_run_every_middleware mw :
  let es := router.Load router.fresh mw in
  let chain := builtinMiddlewares ++ mw in
  gin.Handlers (router.g es) = chain /\
  length (gin.Routes (router.g es)) = 10%nat /\
  Forall (fun r => exists h, gin.Chain r = chain ++ [h])
         (gin.Routes (router.g es)).
Proof.
  intros es chain. subst es chain. unfold builtinMiddlewares.
  unfold router.Load. cbv zeta. cbn [router.g router.fresh].
  unfold gin.GET, gin.POST, gin.PUT, gin.DELETE.
  rewrite !Handlers_handle, !Routes_handle.
  unfold gin.Group, gin.root. cbn [gin.basePath gin.groupHandlers].
  rewrite !Handlers_handle. unfold gin.Use, gin.New.
  cbn [gin.Handlers gin.Routes app].
  split; [reflexivity |]. split; [reflexivity |].
  repeat (constructor; [eexists; reflexivity |]).
  constructor.
Qed.

(** On that engine, and whatever the caller's middlewares, [Load]
    registers no method and path twice: none of its registrations is the
    duplicate on which gin panics. *)
Theorem Load_registers_no_route_twice mw :
  NoDup (map routeKey (gin.Routes (router.g (router.Load router.fresh mw)))).
Proof.
  assert (map routeKey (gin.Routes (router.g (router.Load router.fresh mw)))
          = [("POST", "/user"); ("GET", "/user/:username");
             ("DELETE", "/user/:id"); ("PUT", "/user/:id");
             ("POST", "/user/token"); ("GET", "/sd/health");
             ("GET", "/sd/disk"); ("GET", "/sd/cpu"); ("GET", "/sd/ram");
             ("GET", "/metrics")]) as ->
    by (vm_compute; reflexivity).
  apply (bool_decide_unpack _). vm_compute. exact I.
Qed.

(** The paths kept out of the access log are GET routes that [Load]
    registers, the probe's own ["/sd/health"] among them, and they are
    all of [Load]'s routes outside the ["/user"] group. *)
Theorem unlogged_paths_are_the_service_routes mw :
  let routes := gin.Routes (router.g (router.Load router.fresh mw)) in
  In "/sd/health" loggerSkipPaths /\
  (forall p, In p loggerSkipPaths ->
             exists r, gin.findRoute "GET" p routes = Some r) /\
  (forall r, In r routes ->
             In (gin.Path r) loggerSkipPaths \/
             exists rest, gin.Path r = "/user" +:+ rest).
Proof.
  intros routes. split; [right; left; reflexivity |]. split.
  - intros p Hp. unfold loggerSkipPaths in Hp. cbn [In] in Hp.
    destruct Hp as [<- | [<- | [<- | [<- | [<- | []]]]]];
      subst routes; eexists; vm_compute; reflexivity.
  - intros r Hin. subst routes.
    vm_compute in Hin. unfold loggerSkipPaths.
    repeat destruct Hin as [Hin | Hin]; try contradiction; subst r;
      cbn [gin.Path];
      first [ left; vm_compute; tauto
            | right; eexists; vm_compute; reflexivity ].
Qed.

(** ** What a running process keeps *)

Lemma turns_app p a b : turns p (a ++ b) = (turns p a + turns p b)%nat.
Proof.
  induction a as [| t a IH]; [reflexivity |].
  cbn [app turns]. rewrite IH. lia.
Qed.

Lemma extends_refl w : extends w w.
Proof. exists []. reflexivity. Qed.

Lemma extends_cons ev w : extends w (ev :: w).
Proof. exists [ev]. reflexivity. Qed.

Lemma extends_trans w1 w2 w3 : extends w1 w2 -> extends w2 w3 -> extends w1 w3.
Proof.
  intros [a ->] [b ->]. exists (b ++ a). rewrite app_assoc. reflexivity.
Qed.

Lemma extends_failRound net url w : extends w (failRound net url w).
Proof. exact (extends_failRounds net url 1 w). Qed.

(** A step only adds to the log, leaves the context alone and reopens
    no channel. *)
Lemma step_monotone env t s s' :
  step env t s = Some s' ->
  ctx s' = ctx s /\ extends (world s) (world s') /\
  (closed (deployed s) = true -> closed (deployed s') = true) /\
  (closed (replayed s) = true -> closed (replayed s') = true) /\
  (closed (started s) = true -> closed (started s') = true).
Proof.
  intros H. step_cases H; close_facts; cbn;
    repeat split; try congruence;
    first [ apply extends_refl | apply extends_cons
          | apply extends_failRound ].
Qed.

Lemma run_monotone env more : forall s,
  let s' := run env more s in
  ctx s' = ctx s /\ extends (world s) (world s') /\
  (closed (deployed s) = true -> closed (deployed s') = true) /\
  (closed (replayed s) = true -> closed (replayed s') = true) /\
  (closed (started s) = true -> closed (started s') = true).
Proof.
  induction more as [| t more IH]; intros s; cbv zeta.
  - cbn [run fold_left]. repeat split; auto using extends_refl.
  - rewrite run_cons.
    destruct (step env t s) as [s1 |] eqn:Hstep;
      cbn [default from_option]; unfold id; [| apply IH].
    destruct (step_monotone env t s s1 Hstep) as (Hc & Hw & Hd & Hr & Hs).
    destruct (IH s1) as (Hc' & Hw' & Hd' & Hr' & Hs').
    repeat split; [congruence | eapply extends_trans; eassumption | auto ..].
Qed.

(** Once [server] is running, exit status 1 comes from the probe
    goroutine's [logrus.Fatalln] and from nothing else, and that line is
    logged at most once, after a budget of failed GETs. A process that
    has closed [deployed] has not logged it and can no longer end with
    status 1, whatever is scheduled afterwards. *)
Theorem fatal_exit_only_before_deployed env c sched :
  let s := run env sched (main c) in
  (proc s = Exited 1 <-> probePc s = ProbeFatal) /\
  (probePc s = ProbeFatal ->
   count is_fatal (world s) = 1%nat /\ allFailed (world s)) /\
  (probePc s <> ProbeFatal -> count is_fatal (world s) = O) /\
  (closed (deployed s) = true ->
   forall more,
     let s' := run env more s in
     count is_fatal (world s') = O /\ proc s' <> Exited 1 /\
     closed (deployed s') = true).
Proof.
  intros s. pose proof (reachable_inv env c sched) as Hinv. fold s in Hinv.
  destruct Hinv as [_ Hch _ [Hpi Hexit _ _]]. unfold probeInv in Hpi.
  split; [| split; [| split]].
  - split; [exact Hexit |]. intros E. rewrite E in Hpi. tauto.
  - intros E. rewrite E in Hpi. tauto.
  - intros Hne. destruct (probePc s); tauto.
  - intros Hdep more s'.
    destruct (run_monotone env more s) as (_ & _ & Hd & _).
    specialize (Hd Hdep). fold s' in Hd.
    assert (s' = run env (sched ++ more) (main c)) as Hs'
      by (subst s' s; rewrite run_app; reflexivity).
    pose proof (reachable_inv env c (sched ++ more)) as Hinv'.
    rewrite <- Hs' in Hinv'.
    destruct Hinv' as [_ Hch' _ [Hpi' Hexit' _ _]]. unfold probeInv in Hpi'.
    pose proof (proj1 (chan_deployed _ _ Hch') Hd) as Hpc'.
    rewrite Hpc' in Hpi'.
    split; [tauto |]. split; [| exact Hd].
    intros Hex. apply Hexit' in Hex. congruence.
Qed.

(** ** Progress under fair schedules *)

Lemma step_other_probePc env t s s' :
  step env t s = Some s' -> isProbe t = false -> probePc s' = probePc s.
Proof.
  intros H Ht. step_cases H; cbn; try reflexivity; discriminate.
Qed.

(** A turn of the probe goroutine that does not end the process brings
    it closer to its end. *)
Lemma step_probe_remaining env c s s' :
  Inv env c s -> step env TProbe s = Some s' -> proc s' = Running ->
  (probeRemaining (maxPingCount c) (probePc s')
   < probeRemaining (maxPingCount c) (probePc s))%nat.
Proof.
  intros Hinv H Hlive.
  pose proof (setup_ctx _ _ (inv_setup _ _ _ Hinv)) as Hctx.
  pose proof (probe_pc _ (inv_probe _ _ _ Hinv)) as Hpi.
  unfold probeInv in Hpi. rewrite Hctx in Hpi.
  unfold step, stepProbe in H. destruct (proc s); try discriminate.
  rewrite Hctx in H.
  destruct (probePc s) as [i | err | | |] eqn:Hpc; try discriminate.
  - destruct Hpi as (H0 & Hb & _).
    destruct (pingIter_cases (net env) c i (world s))
      as [(Hlt & _ & Hit) | [(Hlt & _ & Hit) | (Hge & Hit)]];
      rewrite Hit in H; injection H as <-; cbn [probePc setProbePc].
    + cbn [probeRemaining]. lia.
    + rewrite (add_one_below c) by lia. cbn [probeRemaining]. lia.
    + cbn [probeRemaining]. lia.
  - destruct err; cbn [errors.is_nil] in H; injection H as <-;
      cbn in Hlive |- *; [lia | discriminate].
  - destruct (close (deployed s)); injection H as <-;
      unfold closePanic in *; cbn in Hlive |- *; [lia | discriminate].
Qed.

Lemma probe_progress env c more : forall s,
  Inv env c s -> proc (run env more s) = Running ->
  (probeRemaining (maxPingCount c) (probePc (run env more s))
   <= probeRemaining (maxPingCount c) (probePc s) - turns isProbe more)%nat.
Proof.
  induction more as [| t more IH]; intros s Hinv Hlive.
  - cbn [run fold_left turns]. lia.
  - rewrite run_cons in Hlive |- *. cbn [turns].
    destruct (step env t s) as [s1 |] eqn:Hstep;
      cbn [default from_option] in *; unfold id in *.
    + pose proof (step_inv env c t s s1 Hinv Hstep) as Hinv1.
      specialize (IH s1 Hinv1 Hlive).
      destruct t; cbn [isProbe b2n];
        try (rewrite (step_other_probePc env _ s s1 Hstep eq_refl) in IH;
             exact IH).
      pose proof (step_probe_remaining env c s s1 Hinv Hstep
                    (run_running env more s1 Hlive)).
      lia.
    + specialize (IH s Hinv Hlive).
      destruct t; cbn [isProbe b2n]; try exact IH.
      pose proof (run_running env more s Hlive) as Hrun.
      unfold step, stepProbe in Hstep. rewrite Hrun in Hstep.
      destruct (probePc s) as [i | err | | |] eqn:Hpc;
        try discriminate; cbn [probeRemaining] in *; try lia.
      * destruct (pingIter (net env) (ctx s) i (world s)) as [[e | j] w1];
          discriminate.
      * destruct (errors.is_nil err); discriminate.
      * destruct (close (deployed s)); discriminate.
Qed.

Lemma probe_closes_deployed env c sched :
  let s := run env sched (main c) in
  proc s = Running ->
  (Z.to_nat (Z.max (maxPingCount c) 0) + 3 <= turns isProbe sched)%nat ->
  closed (deployed s) = true /\ sawOk (world s).
Proof.
  intros s Hlive Hturns.
  pose proof (probe_progress env c sched (main c) (main_inv env c) Hlive)
    as Hrem.
  fold s in Hrem. cbn [main server probePc probeRemaining] in Hrem.
  rewrite Z.sub_0_r in Hrem.
  pose proof (reachable_inv env c sched) as [_ Hch _ [Hpi _ _ _]].
  fold s in Hch, Hpi. unfold probeInv in Hpi.
  destruct (probePc s) eqn:Hpc; cbn [probeRemaining] in Hrem; try lia.
  - destruct Hpi as [Hex _]. congruence.
  - split; [apply (chan_deployed _ _ Hch); exact Hpc | tauto].
Qed.

(** In terms of the turns given: a turn of the probe goroutine inside
    [pingServer] being one completed pass of the loop, its GET answered,
    a process that is still running after the goroutine has had [n + 3]
    turns, [n] being a non-negative budget, has finished the goroutine
    and closed [deployed] once, after a GET answered with 200 and
    without the fatal line, however those turns were interleaved with
    the other goroutines. *)
Theorem probe_turns_close_deployed env c sched :
  let s := run env sched (main c) in
  proc s = Running ->
  (Z.to_nat (Z.max (maxPingCount c) 0) + 3 <= turns isProbe sched)%nat ->
  closed (deployed s) = true /\ sawOk (world s) /\
  probePc s = ProbeDone /\ count is_fatal (world s) = O /\
  count (is_close Deployed) (world s) = 1%nat.
Proof.
  intros s Hlive Hturns.
  destruct (probe_closes_deployed env c sched Hlive Hturns) as [Hdep Hsaw].
  fold s in Hdep, Hsaw.
  pose proof (reachable_inv env c sched) as [_ Hch _ [Hpi _ _ _]].
  fold s in Hch, Hpi. unfold probeInv in Hpi.
  pose proof (proj1 (chan_deployed _ _ Hch) Hdep) as Hpc.
  rewrite Hpc in Hpi.
  split; [exact Hdep |]. split; [exact Hsaw |]. split; [exact Hpc |].
  split; [tauto |]. rewrite (chan_deployed_count _ _ Hch), Hdep. reflexivity.
Qed.

Lemma probe_turns_close_deployed_witness :
  let s := run envGated (repeat TProbe 23) (main defaultContext) in
  closed (deployed s) = true /\ sawOk (world s) /\
  probePc s = ProbeDone /\ count is_fatal (world s) = O /\
  count (is_close Deployed) (world s) = 1%nat.
Proof.
  apply (probe_turns_close_deployed envGated defaultContext
           (repeat TProbe 23)).
  - vm_compute. reflexivity.
  - vm_compute. lia.
Defined.

Lemma step_other_replay env t s s' :
  step env t s = Some s' -> isReplay t = false ->
  closed (replayed s') = closed (replayed s).
Proof.
  intros H Ht. step_cases H; cbn; try reflexivity; discriminate.
Qed.

(** With the collaborator's own condition met, one turn is all the
    replay collaborator needs. *)
Lemma replay_progress env c more : forall s,
  Inv env c s ->
  (replayAfterDeployed env = true -> closed (deployed s) = true) ->
  proc (run env more s) = Running -> (1 <= turns isReplay more)%nat ->
  closed (replayed (run env more s)) = true.
Proof.
  induction more as [| t more IH]; intros s Hinv Hgate Hlive Hturns;
    [cbn in Hturns; lia |].
  rewrite run_cons in Hlive |- *. cbn [turns] in Hturns.
  pose proof (inv_chan _ _ _ Hinv) as Hch.
  destruct (step env t s) as [s1 |] eqn:Hstep;
    cbn [default from_option] in *; unfold id in *.
  - pose proof (step_inv env c t s s1 Hinv Hstep) as Hinv1.
    destruct (step_monotone env t s s1 Hstep) as (_ & _ & Hd & _).
    destruct (isReplay t) eqn:Ht.
    + destruct t; try discriminate.
      apply (run_monotone env more s1).
      pose proof (chan_no_panic _ _ (inv_chan _ _ _ Hinv1)) as Hnp.
      unfold step, stepReplay in Hstep.
      destruct (proc s); try discriminate.
      destruct (replayPc s); try discriminate.
      destruct (replayAfterDeployed env && negb (recvReady (deployed s)));
        try discriminate.
      destruct (close (replayed s)) as [ch |] eqn:Hcl;
        injection Hstep as <-; [| discriminate].
      apply close_Some in Hcl. cbn. tauto.
    + apply IH; auto; cbn [b2n] in Hturns; lia.
  - destruct (isReplay t) eqn:Ht.
    + destruct t; try discriminate.
      apply (run_monotone env more s).
      pose proof (run_running env more s Hlive) as Hrun.
      unfold step, stepReplay, recvReady in Hstep. rewrite Hrun in Hstep.
      destruct (replayPc s) eqn:Hpc.
      * destruct (replayAfterDeployed env) eqn:Hg.
        -- rewrite (Hgate eq_refl) in Hstep. cbn in Hstep.
           destruct (close (replayed s)); discriminate.
        -- cbn in Hstep. destruct (close (replayed s)); discriminate.
      * apply (chan_replayed _ _ Hch). exact Hpc.
    + apply IH; auto; cbn [b2n] in Hturns; lia.
Qed.

(** A process that is still running after a schedule that first gives
    the probe goroutine its [n + 3] turns, then the replay collaborator
    one turn, then the registration goroutine three, whatever else is
    interleaved, has verified its routes, seen the replay complete,
    registered exactly once and closed [started]. *)
Theorem live_process_gets_registered env c a b r :
  let s := run env (a ++ b ++ r) (main c) in
  proc s = Running ->
  (Z.to_nat (Z.max (maxPingCount c) 0) + 3 <= turns isProbe a)%nat ->
  (1 <= turns isReplay b)%nat ->
  (3 <= registerTurns r)%nat ->
  closed (deployed s) = true /\ closed (replayed s) = true /\
  closed (started s) = true /\ count is_register (world s) = 1%nat /\
  sawOk (world s).
Proof.
  intros s Hlive Ha Hb Hr. subst s.
  rewrite !run_app in Hlive |- *.
  set (sa := run env a (main c)) in *.
  set (sb := run env b sa) in *.
  set (s := run env r sb) in *.
  assert (proc sb = Running) as Hliveb by (apply (run_running env r); exact Hlive).
  assert (proc sa = Running) as Hlivea by (apply (run_running env b); exact Hliveb).
  pose proof (reachable_inv env c a) as Hinva. fold sa in Hinva.
  pose proof (run_inv env c b sa Hinva) as Hinvb. fold sb in Hinvb.
  pose proof (run_inv env c r sb Hinvb) as Hinv. fold s in Hinv.
  destruct (probe_closes_deployed env c a Hlivea Ha) as [Hdepa _].
  fold sa in Hdepa.
  assert (closed (replayed sb) = true) as Hrepb
    by (apply (replay_progress env c b sa); auto).
  pose proof (register_progress env c r sb Hinvb Hrepb Hlive) as Hprog.
  fold s in Hprog.
  assert (regPc s = RegDone) as Hpc
    by (destruct (regPc s); cbn [regRank] in Hprog; try lia; reflexivity).
  destruct (run_monotone env b sa) as (_ & _ & Hd1 & _).
  destruct (run_monotone env r sb) as (_ & _ & Hd2 & Hr2 & _).
  fold sb in Hd1. fold s in Hd2, Hr2.
  destruct Hinv as [_ Hch Hreg [Hpi _ _ _]].
  assert (closed (deployed s) = true) as Hdep by auto.
  unfold regInv in Hreg. rewrite Hpc in Hreg.
  unfold probeInv in Hpi.
  rewrite (proj1 (chan_deployed _ _ Hch) Hdep) in Hpi.
  repeat split; try tauto; auto.
  apply (chan_started _ _ Hch). exact Hpc.
Qed.

Lemma live_process_gets_registered_witness :
  let s := run envGated (repeat TProbe 23 ++ [TReplay] ++ repeat TRegister 3)
             (main defaultContext) in
  closed (deployed s) = true /\ closed (replayed s) = true /\
  closed (started s) = true /\ count is_register (world s) = 1%nat /\
  sawOk (world s).
Proof.
  apply (live_process_gets_registered envGated defaultContext
           (repeat TProbe 23) [TReplay] (repeat TRegister 3)).
  - vm_compute. reflexivity.
  - vm_compute. lia.
  - vm_compute. lia.
  - vm_compute. lia.
Defined.

(** ** The probe goroutine under interleaving *)

Lemma attempts_probeEvents w : attempts (probeEvents w) = attempts w.
Proof.
  unfold attempts. induction w as [| ev w IH]; [reflexivity |].
  cbn [probeEvents]. destruct ev; cbn [is_probe_event count is_get];
    rewrite ?IH; reflexivity.
Qed.

Lemma step_refine env c t s s' :
  Inv env c s -> refineInv env s -> step env t s = Some s' ->
  refineInv env s'.
Proof.
  intros Hinv Href H.
  pose proof (probe_pc _ (inv_probe _ _ _ Hinv)) as Hpi.
  unfold probeInv, refineInv in *.
  step_cases H; cbn -[pingServer failRounds Z.to_nat]; try exact Href;
    try exact I.
  - (* the GET was answered with 200 *)
    destruct Hpi as (H0 & Hb & Ha & _). destruct Href as [Hlog Hfail].
    assert (attempts (world s) = Z.to_nat i) as Hatt by lia.
    rewrite Hlog, Hatt.
    pose proof (pingServer_succeeds (net env) (ctx s) (S (Z.to_nat i)) [])
      as Hsucc.
    cbn [attempts count Nat.add] in Hsucc.
    replace (S (Z.to_nat i) - 1)%nat with (Z.to_nat i) in Hsucc by lia.
    apply Hsucc; [lia | lia | exact Hfail |].
    rewrite <- Hatt. exact Hok.
  - (* the GET failed *)
    destruct Hpi as (H0 & Hb & Ha & _). destruct Href as [Hlog Hfail].
    assert (attempts (world s) = Z.to_nat i) as Hatt by lia.
    rewrite (add_one_below (ctx s)) by lia.
    replace (Z.to_nat (i + 1)) with (S (Z.to_nat i)) by lia.
    split.
    + rewrite failRounds_last. unfold failRound.
      cbn [probeEvents is_probe_event].
      rewrite Hlog, attempts_failRounds, Hatt. reflexivity.
    + intros j Hj. destruct (Nat.eq_dec j (Z.to_nat i)) as [-> | Hne].
      * rewrite <- Hatt. exact Hok.
      * apply Hfail. lia.
  - (* the budget is used up *)
    destruct Hpi as (H0 & Hb & Ha & _). destruct Href as [Hlog Hfail].
    assert (Z.to_nat (maxPingCount (ctx s)) = Z.to_nat i) as Hn by lia.
    rewrite Hlog, <- Hn. apply pingServer_exhausts.
    intros j Hj. cbn [attempts count Nat.add]. apply Hfail. lia.
  - (* a close that panics: not reachable, and nothing to show *)
    rewrite Hpc. exact I.
Qed.

Lemma run_refine env c sched : forall s,
  Inv env c s -> refineInv env s -> refineInv env (run env sched s).
Proof.
  induction sched as [| t sched IH]; intros s Hinv Href; [exact Href |].
  rewrite run_cons.
  destruct (step env t s) as [s1 |] eqn:Hstep;
    cbn [default from_option]; unfold id; [| apply IH; assumption].
  apply IH; [eapply step_inv | eapply step_refine]; eassumption.
Qed.

(** However the goroutines are interleaved, when the probe goroutine is
    back from [pingServer] it holds the error that [pingServer] run on
    its own from an empty log returns, and the GETs, log lines and
    sleeps of the process are, in order, the log of that run. *)
Theorem probe_goroutine_refines_pingServer env c sched :
  let s := run env sched (main c) in
  forall err,
    probePc s = ProbeReturned err ->
    pingServer (net env) c [] = (Some err, probeEvents (world s)).
Proof.
  intros s err Hpc.
  assert (refineInv env s) as Href.
  { apply (run_refine env c); [apply main_inv |].
    unfold refineInv. cbn. split; [reflexivity | intros j Hj; lia]. }
  pose proof (setup_ctx _ _ (inv_setup _ _ _ (reachable_inv env c sched)))
    as Hctx.
  fold s in Hctx. unfold refineInv in Href. rewrite Hpc, Hctx in Href.
  exact Href.
Qed.

Lemma probe_goroutine_refines_pingServer_witness :
  pingServer (net envGated) defaultContext []
  = (Some errors.nil,
     probeEvents
       (world (run envGated [TProbe; TReplay; TProbe; TRegister; TProbe]
                 (main defaultContext)))).
Proof.
  apply (probe_goroutine_refines_pingServer envGated defaultContext
           [TProbe; TReplay; TProbe; TRegister; TProbe] errors.nil).
  vm_compute. reflexivity.
Defined.

(** ** The order of the milestones *)

Lemma count_close_In ch w :
  (1 <= count (is_close ch) w)%nat -> In (EvClose ch) w.
Proof.
  induction w as [| ev w IH]; cbn [count]; [lia |].
  intros H. destruct (is_close ch ev) eqn:E.
  - left. destruct ev; try discriminate.
    destruct ch0, ch; try discriminate; reflexivity.
  - right. apply IH. cbn in H. lia.
Qed.

Lemma happensBefore_here a b w : In a w -> happensBefore a b (b :: w).
Proof. intros H. exists [], w. split; [reflexivity | exact H]. Qed.

Lemma happensBefore_get_cons ev w :
  (exists url r, attempt_ok r = true /\
                 happensBefore (EvGet url r) (EvClose Deployed) w) ->
  exists url r, attempt_ok r = true /\
                happensBefore (EvGet url r) (EvClose Deployed) (ev :: w).
Proof.
  intros (url & r & Hok & Hb). exists url, r.
  split; [exact Hok | apply happensBefore_cons; exact Hb].
Qed.

(** An event that is no milestone keeps the order. *)
Lemma InvOrder_cons_other env ev w :
  InvOrder env w ->
  (forall ok, ev <> EvRegister ok) ->
  ev <> EvClose Replayed -> ev <> EvClose Deployed ->
  InvOrder env (ev :: w).
Proof.
  intros [H1 H2 H3] Hn1 Hn2 Hn3. split.
  - intros ok [E | Hin]; [destruct (Hn1 ok E) |].
    apply happensBefore_cons, H1, Hin.
  - intros Hg [E | Hin]; [destruct (Hn2 E) |].
    apply happensBefore_cons, H2; assumption.
  - intros [E | Hin]; [destruct (Hn3 E) |].
    apply happensBefore_get_cons, H3, Hin.
Qed.

Lemma InvOrder_register env ok0 w :
  InvOrder env w -> In (EvClose Replayed) w ->
  InvOrder env (EvRegister ok0 :: w).
Proof.
  intros [H1 H2 H3] Hrep. split.
  - intros ok [E | Hin].
    + injection E as <-. apply happensBefore_here. exact Hrep.
    + apply happensBefore_cons, H1, Hin.
  - intros Hg [E | Hin]; [discriminate |].
    apply happensBefore_cons, H2; assumption.
  - intros [E | Hin]; [discriminate |].
    apply happensBefore_get_cons, H3, Hin.
Qed.

Lemma InvOrder_deployed env w :
  InvOrder env w -> sawOk w -> InvOrder env (EvClose Deployed :: w).
Proof.
  intros [H1 H2 H3] (url & r & Hin & Hok). split.
  - intros ok [E | Hin']; [discriminate |].
    apply happensBefore_cons, H1, Hin'.
  - intros Hg [E | Hin']; [discriminate |].
    apply happensBefore_cons, H2; assumption.
  - intros _. exists url, r.
    split; [exact Hok | apply happensBefore_here; exact Hin].
Qed.

Lemma InvOrder_replayed env w :
  InvOrder env w ->
  (replayAfterDeployed env = true -> In (EvClose Deployed) w) ->
  InvOrder env (EvClose Replayed :: w).
Proof.
  intros [H1 H2 H3] Hdep. split.
  - intros ok [E | Hin]; [discriminate |].
    apply happensBefore_cons, H1, Hin.
  - intros Hg _. apply happensBefore_here, Hdep, Hg.
  - intros [E | Hin]; [discriminate |].
    apply happensBefore_get_cons, H3, Hin.
Qed.

Lemma step_order env c t s s' :
  Inv env c s -> InvOrder env (world s) -> step env t s = Some s' ->
  InvOrder env (world s').
Proof.
  intros Hinv Hord H.
  pose proof (inv_chan _ _ _ Hinv) as Hch.
  pose proof (inv_reg _ _ _ Hinv) as Hr. unfold regInv in Hr.
  pose proof (probe_pc _ (inv_probe _ _ _ Hinv)) as Hpi.
  unfold probeInv in Hpi.
  assert (closed (replayed s) = true -> In (EvClose Replayed) (world s))
    as Hin_rep.
  { intros E. apply count_close_In.
    rewrite (chan_replayed_count _ _ Hch), E. cbn. lia. }
  assert (closed (deployed s) = true -> In (EvClose Deployed) (world s))
    as Hin_dep.
  { intros E. apply count_close_In.
    rewrite (chan_deployed_count _ _ Hch), E. cbn. lia. }
  step_cases H; cbn [world setWorld setRegPc setProbePc setReplayPc setProc
                      setMainPc setStarted setDeployed setReplayed snd
                      logrus_Infoln emit];
    unfold failRound; try exact Hord;
    try (repeat (apply InvOrder_cons_other;
                 [| intros ?; discriminate | discriminate | discriminate ]);
         exact Hord).
  - (* sd.Register(c) *)
    apply InvOrder_register; [exact Hord | tauto].
  - (* close(deployed) *)
    apply InvOrder_deployed; [exact Hord | tauto].
  - (* the replay collaborator closes replayed *)
    apply InvOrder_replayed; [exact Hord |]. intros Hg. apply Hin_dep.
    rewrite Hg in Hgate. unfold recvReady in Hgate.
    destruct (closed (deployed s)); [reflexivity | discriminate].
Qed.

Lemma run_order env c sched : forall s,
  Inv env c s -> InvOrder env (world s) ->
  InvOrder env (world (run env sched s)).
Proof.
  induction sched as [| t sched IH]; intros s Hinv Hord; [exact Hord |].
  rewrite run_cons.
  destruct (step env t s) as [s1 |] eqn:Hstep;
    cbn [default from_option]; unfold id; [| apply IH; assumption].
  apply IH; [eapply step_inv | eapply step_order]; eassumption.
Qed.

(** In the log of any execution, read in the order things happened:
    every registration call comes after the close of [replayed]; the
    close of [deployed] comes after a GET answered with 200; and if the
    replay collaborator waits for [deployed], the close of [replayed]
    comes after the close of [deployed]. *)
Theorem milestones_are_logged_in_order env c sched :
  let w := world (run env sched (main c)) in
  (forall ok, In (EvRegister ok) w ->
              happensBefore (EvClose Replayed) (EvRegister ok) w) /\
  (In (EvClose Deployed) w ->
   exists url r, attempt_ok r = true /\
                 happensBefore (EvGet url r) (EvClose Deployed) w) /\
  (replayAfterDeployed env = true -> In (EvClose Replayed) w ->
   happensBefore (EvClose Deployed) (EvClose Replayed) w).
Proof.
  intros w.
  assert (InvOrder env (world (run env sched (main c)))) as [H1 H2 H3].
  { apply (run_order env c); [apply main_inv |].
    split; cbn; intros; contradiction. }
  fold w in H1, H2, H3. auto.
Qed.

(** ** A budget that allows no attempt *)

(** With a budget of zero or less the process never sends a GET and
    never closes [deployed]; by the second turn of the probe goroutine it
    is no longer running. *)
Theorem no_budget_no_service env c sched :
  maxPingCount c <= 0 ->
  let s := run env sched (main c) in
  attempts (world s) = O /\
  closed (deployed s) = false /\
  ((2 <= turns isProbe sched)%nat -> proc s <> Running).
Proof.
  intros Hn s.
  pose proof (reachable_inv env c sched) as Hinv. fold s in Hinv.
  pose proof (setup_ctx _ _ (inv_setup _ _ _ Hinv)) as Hctx.
  pose proof (inv_chan _ _ _ Hinv) as Hch.
  pose proof (probe_pc _ (inv_probe _ _ _ Hinv)) as Hpi.
  unfold probeInv in Hpi. rewrite Hctx in Hpi.
  assert (attempts (world s) = O) as Hatt by (destruct (probePc s); lia).
  assert (sawOk (world s) -> False) as Hnever.
  { intros (url & r & Hin & _). unfold attempts in Hatt.
    clear - Hin Hatt. induction (world s) as [| ev w IH]; [destruct Hin |].
    cbn [count] in Hatt. destruct Hin as [-> | Hin]; [discriminate |].
    apply IH; [| exact Hin]. destruct (is_get ev); cbn in Hatt; lia. }
  split; [exact Hatt |]. split.
  - destruct (closed (deployed s)) eqn:E; [| reflexivity].
    apply (chan_deployed _ _ Hch) in E. rewrite E in Hpi. tauto.
  - intros Hturns Hlive.
    pose proof (probe_progress env c sched (main c) (main_inv env c) Hlive)
      as Hrem.
    fold s in Hrem. cbn [main server probePc probeRemaining] in Hrem.
    replace (Z.to_nat (Z.max (maxPingCount c) 0 - 0)) with O in Hrem by lia.
    destruct (probePc s) eqn:Hpc; cbn [probeRemaining] in Hrem; try lia;
      try tauto.
    destruct Hpi as [Hex _]. congruence.
Qed.

Lemma no_budget_no_service_witness :
  let s := run envGated [TProbe; TReplay; TProbe] (main (withMaxPingCount 0)) in
  attempts (world s) = O /\
  closed (deployed s) = false /\
  ((2 <= turns isProbe [TProbe; TReplay; TProbe])%nat -> proc s <> Running).
Proof.
  apply (no_budget_no_service envGated (withMaxPingCount 0)
           [TProbe; TReplay; TProbe]).
  vm_compute. discriminate.
Defined.
